(** * apply-branding: a shallow embedding of [src/rebranding/apply-branding.ts]

    The script reads a branding configuration and projects it onto four
    targets: the package manifest, the localization map, the icon assets
    and the English locale files.  This development embeds the script as
    it is written -- JavaScript strings as lists of code units, parsed
    JSON documents as a small value type with insertion-ordered
    properties, the file system, the path module and the JSON codec as an
    interface the script is linked against, and [main] as a computation
    that threads the disk and the console and may throw or exit -- and
    proves what the specification states about it. *)

From Stdlib Require Import Ascii String.
From Stdlib Require Import List Arith Lia Bool.
Import ListNotations.
Open Scope string_scope.
Open Scope list_scope.

Set Implicit Arguments.
Set Warnings "-register-all".

(* ================================================================= *)
(** * Part I: definitions *)
(* ================================================================= *)

(** ** JavaScript strings *)

(** A string is its sequence of code units.  Literals of the source are
    written as Rocq string literals and read through [lit]. *)
Definition str := list ascii.

Definition lit (s : string) : str := list_ascii_of_string s.
Coercion lit : string >-> str.

Fixpoint str_eqb (a b : str) : bool :=
  match a, b with
  | [], [] => true
  | x :: a', y :: b' => Ascii.eqb x y && str_eqb a' b'
  | _, _ => false
  end.

(** [starts_with s find]: the code units of [find] are found at the
    front of [s] (the test SplitMatcher makes at one position). *)
Fixpoint starts_with (s find : str) {struct find} : bool :=
  match find, s with
  | [], _ => true
  | _ :: _, [] => false
  | a :: find', b :: s' => Ascii.eqb a b && starts_with s' find'
  end.

(** The line feed written behind a serialized document. *)
Definition newline : str := ["010"%char].

(** [String.prototype.endsWith]. *)
Definition endsWith (s suffix : str) : bool :=
  starts_with (rev s) (rev suffix).

(** ** [String.prototype.split] with a string separator

    The scan of ECMAScript's split: the text is read left to right; at a
    position where the separator matches, the piece collected so far is
    closed and the scan resumes behind the separator; elsewhere the code
    unit joins the current piece.  [skip] counts the code units of a
    matched separator that remain to be passed over. *)
Fixpoint split_scan (R : str) (skip : nat) (s : str) : list str :=
  match s with
  | [] => [[]]
  | c :: s' =>
    match skip with
    | S k => split_scan R k s'
    | O =>
      if starts_with s R then [] :: split_scan R (length R - 1) s'
      else match split_scan R 0 s' with
           | p :: ps => (c :: p) :: ps
           | [] => [[c]]
           end
    end
  end.

(** An empty separator splits the text into its code units. *)
Definition split (s sep : str) : list str :=
  match sep with
  | [] => map (fun c => [c]) s
  | _ :: _ => split_scan sep 0 s
  end.

(** ** [Array.prototype.join] *)
Fixpoint join (parts : list str) (sep : str) : str :=
  match parts with
  | [] => []
  | p :: ps =>
    match ps with
    | [] => p
    | _ :: _ => p ++ sep ++ join ps sep
    end
  end.

(** ** The helper [replaceAll] (lines 44-46 and 152-154) *)
Definition replaceAll (s find replace : str) : str :=
  join (split s find) replace.

(** ** Truthiness and [||] on strings that may be undefined *)

Definition truthy (s : str) : bool :=
  match s with
  | [] => false
  | _ :: _ => true
  end.

(** [a || d] where [a] is a string or undefined and [d] a string. *)
Definition or_else (a : option str) (d : str) : str :=
  match a with
  | Some (c :: s) => c :: s
  | _ => d
  end.

(** ** Occurrences *)

(** [occurs tok s]: [tok] is a substring of [s]. *)
Definition occurs (tok s : str) : Prop :=
  exists u v, s = u ++ tok ++ v.

(** The same, decided by scanning. *)
Fixpoint includes (s tok : str) : bool :=
  starts_with s tok ||
  match s with
  | [] => false
  | _ :: s' => includes s' tok
  end.

(** [no_straddle find L Rt]: no copy of [find] begins in [L] and ends in
    [Rt] when [Rt] is written behind [L]. *)
Definition no_straddle (find L Rt : str) : Prop :=
  forall f1 f2 l0 r0,
    find = f1 ++ f2 -> f1 <> [] -> f2 <> [] ->
    L = l0 ++ f1 -> Rt = f2 ++ r0 -> False.

(** [agree x y]: [x] and [y] coincide on their common length. *)
Fixpoint agree (x y : str) : bool :=
  match x, y with
  | a :: x', b :: y' => Ascii.eqb a b && agree x' y'
  | _, _ => true
  end.

(** [clear_cut find sa pb]: no copy of [find] can lie across the point
    where a text ending in [sa] meets a text beginning with [pb]: for
    every way of cutting [find] into two non-empty halves, the left
    half disagrees with the end of [sa] or the right half disagrees
    with the start of [pb]. *)
Definition clear_cut (find sa pb : str) : bool :=
  forallb
    (fun d => negb (agree (rev (firstn d find)) (rev sa)
                    && agree (skipn d find) pb))
    (seq 1 (length find - 1)).

(** [unbordered find]: no proper non-empty prefix of [find] is also a
    suffix of it, so two occurrences of [find] never overlap. *)
Definition unbordered (find : str) : bool := clear_cut find [] find.

(** [inert find w]: the word [w] contains no copy of [find], and no copy
    of [find] can reach into [w] from the text before it or out of [w]
    into the text behind it. *)
Definition inert (find w : str) : bool :=
  negb (includes w find) && clear_cut find [] w && clear_cut find w [].

Definition mem (c : ascii) (s : str) : bool := existsb (Ascii.eqb c) s.

(** [fresh_for tok rep]: inserting [rep] into a text cannot complete a
    copy of [tok]: [rep] is not empty, does not contain [tok], does not
    begin with a code unit found in [tok] behind its first one, and does
    not end with a code unit found in [tok] before its last one. *)
Definition fresh_for (tok rep : str) : bool :=
  match rep with
  | [] => false
  | c :: _ =>
    negb (includes rep tok)
    && negb (mem c (tl tok))
    && negb (mem (last rep c) (removelast tok))
  end.

(** ** The configuration (lines 11-24) *)

Record BrandingFiles := {
  package : option str;
  nls : option str
}.

(** [icons] is the object as [Object.entries] enumerates it; [shortName]
    is the property the script reads through [(branding as any)]. *)
Record BrandingConfig := {
  name : str;
  displayName : str;
  publisher : str;
  description : str;
  outputChannelName : str;
  repository : str;
  homepage : str;
  files : option BrandingFiles;
  icons : option (list (str * str));
  shortName : option str
}.

(** ** Parsed JSON documents *)

(** Properties are kept in insertion order.  An array carries, besides
    its elements, the named properties assigned to it. *)
Inductive json :=
| JNull
| JBool (b : bool)
| JNumber (repr : str)
| JString (s : str)
| JArray (elems : list json) (props : list (str * json))
| JObject (props : list (str * json)).

Fixpoint prop_get (props : list (str * json)) (k : str) : option json :=
  match props with
  | [] => None
  | (k', v) :: rest => if str_eqb k' k then Some v else prop_get rest k
  end.

(** Assignment keeps the place of a property that exists and appends a
    new one. *)
Fixpoint prop_set (props : list (str * json)) (k : str) (v : json)
  : list (str * json) :=
  match props with
  | [] => [(k, v)]
  | (k', v') :: rest =>
    if str_eqb k' k then (k', v) :: rest else (k', v') :: prop_set rest k v
  end.

Inductive exn :=
| SyntaxError (msg : str)
| TypeError (msg : str)
| SystemError (code : str) (path : str).

Inductive result (A : Type) :=
| Ok (a : A)
| Throw (e : exn).
Arguments Ok {A} a.
Arguments Throw {A} e.

(** [doc[k]] for a property name [k] that is neither an index nor
    [length]. *)
Definition get_field (doc : json) (k : str) : option json :=
  match doc with
  | JObject ps => prop_get ps k
  | JArray _ ps => prop_get ps k
  | _ => None
  end.

(** [doc[k] = v] in strict code, for such a name: objects and arrays take
    the property, [null] and primitives throw a TypeError. *)
Definition set_field (doc : json) (k : str) (v : json) : result json :=
  match doc with
  | JObject ps => Ok (JObject (prop_set ps k v))
  | JArray es ps => Ok (JArray es (prop_set ps k v))
  | _ => Throw (TypeError "Cannot create property")
  end.

(** The documents that take an assignment: objects and arrays. *)
Definition takes_properties (doc : json) : bool :=
  match doc with
  | JObject _ | JArray _ _ => true
  | _ => false
  end.

Definition and_then {A B} (r : result A) (k : A -> result B) : result B :=
  match r with
  | Ok a => k a
  | Throw e => Throw e
  end.

(** ** Stage 1, pure part (lines 48-73) *)

(** The two textual passes over the raw manifest. *)
Definition rewrite_manifest_text (branding : BrandingConfig) (content : str)
  : str :=
  let content := replaceAll content "kilo-code" (name branding) in
  replaceAll content "kilocode" (publisher branding).

(** The field assignments on the parsed manifest. *)
Definition overwrite_manifest (branding : BrandingConfig) (packageJson : json)
  : result json :=
  and_then (set_field packageJson "name" (JString (name branding)))
  (fun packageJson =>
  and_then (set_field packageJson "publisher" (JString (publisher branding)))
  (fun packageJson =>
  and_then (set_field packageJson "description"
                      (JString (description branding)))
  (fun packageJson =>
  and_then
    (if truthy (repository branding)
     then set_field packageJson "repository"
            (JObject [(lit "type", JString "git");
                      (lit "url", JString (repository branding))])
     else Ok packageJson)
  (fun packageJson =>
    if truthy (homepage branding)
    then set_field packageJson "homepage" (JString (homepage branding))
    else Ok packageJson)))).

(** ** Stage 2, pure part (lines 91-97) *)
Definition overwrite_nls (branding : BrandingConfig) (nls : json)
  : result json :=
  and_then (set_field nls "extension.displayName"
                      (JString (displayName branding)))
  (fun nls =>
  and_then (set_field nls "extension.description"
                      (JString (description branding)))
  (fun nls =>
  and_then (set_field nls "views.activitybar.title"
                      (JString (displayName branding)))
  (fun nls =>
  and_then (set_field nls "views.sidebar.name"
                      (JString (displayName branding)))
  (fun nls =>
  and_then (set_field nls "configuration.title"
                      (JString (displayName branding)))
  (fun nls =>
  and_then (set_field nls "views.contextMenu.label"
                      (JString (displayName branding)))
  (fun nls =>
    set_field nls "views.terminalMenu.label"
              (JString (displayName branding)))))))).

(** The keys stage 2 assigns. *)
Definition nls_known_keys : list str :=
  [lit "extension.displayName"; lit "extension.description";
   lit "views.activitybar.title"; lit "views.sidebar.name";
   lit "configuration.title"; lit "views.contextMenu.label";
   lit "views.terminalMenu.label"].

(** ** Stage 4, pure part (lines 144 and 159-171) *)

(** [(branding as any).shortName || branding.displayName.split(" ")[0]
     || branding.displayName] *)
Definition derive_shortName (branding : BrandingConfig) : str :=
  or_else (shortName branding)
    (or_else (nth_error (split (displayName branding) " ") 0)
       (displayName branding)).

(** The three passes over a locale file, in the order of the source. *)
Definition locale_pass_a (short : str) (content : str) : str :=
  replaceAll content "Kilo Code" short.

Definition locale_pass_b (short : str) (content : str) : str :=
  replaceAll content "Kilo" short.

Definition locale_pass_c (display : str) (content : str) : str :=
  replaceAll content "Kilocode" display.

Definition rewrite_locale_text (short display : str) (content : str) : str :=
  let content := locale_pass_a short content in
  let content := locale_pass_b short content in
  locale_pass_c display content.

(** [completes_Kilocode short]: the short name can stand behind [K],
    [Ki] or [Kil] or before [ilocode], [locode] or [ocode] in a copy of
    [Kilocode]: it agrees with what is left of the token behind one of
    its first three code units, or it ends with one, two or three of
    them. *)
Definition completes_Kilocode (short : str) : bool :=
  existsb (fun d => agree (skipn d (lit "Kilocode")) short
                    || endsWith short (firstn d (lit "Kilocode")))
    [1; 2; 3].

(** ** The platform the script is linked against

    The file system, the path module and the JSON codec are not part of
    the script.  They are taken as an interface; a call that throws in
    Node returns [Throw].  [JSON_parse_branding] is [JSON.parse] read at
    the declared type [BrandingConfig] (line 32). *)
Class Node := {
  FS : Type;
  existsSync : FS -> str -> bool;
  readFileSync : FS -> str -> result str;
  writeFileSync : FS -> str -> str -> result FS;
  mkdirSync : FS -> str -> result FS;
  copyFileSync : FS -> str -> str -> result FS;
  readdirSync : FS -> str -> result (list str);
  path_join : list str -> str;
  path_isAbsolute : str -> bool;
  JSON_parse : str -> result json;
  JSON_parse_branding : str -> result BrandingConfig;
  JSON_stringify : json -> str;
  dirname__ : str
}.

(** What the console receives, in order. *)
Inductive console_line :=
| Log (s : str)
| Error (s : str)
| Warn (s : str)
| ErrorExn (e : exn).

(** A step of the script ends normally, throws, or leaves the process
    through [process.exit]; the world reached is kept in every case. *)
Inductive outcome (A : Type) :=
| Done (a : A)
| Thrown (e : exn)
| Exited (code : nat).
Arguments Done {A} a.
Arguments Thrown {A} e.
Arguments Exited {A} code.

Section Script.

Context {node : Node}.

Record world := {
  disk : FS;
  console : list console_line
}.

Definition M (A : Type) := world -> outcome A * world.

Definition ret {A} (a : A) : M A := fun w => (Done a, w).

Definition bind {A B} (m : M A) (k : A -> M B) : M B :=
  fun w =>
    match m w with
    | (Done a, w') => k a w'
    | (Thrown e, w') => (Thrown e, w')
    | (Exited c, w') => (Exited c, w')
    end.

Notation "x <- m ;; k" := (bind m (fun x => k))
  (at level 61, m at next level, right associativity).
Notation "m ;; k" := (bind m (fun _ => k))
  (at level 61, right associativity).

(** The world after one more line on the console. *)
Definition say (l : console_line) (w : world) : world :=
  {| disk := disk w; console := console w ++ [l] |}.

Definition print (l : console_line) : M unit :=
  fun w => (Done tt, say l w).

Definition console_log (s : str) : M unit := print (Log s).
Definition console_error (s : str) : M unit := print (Error s).
Definition console_warn (s : str) : M unit := print (Warn s).

Definition process_exit (code : nat) : M unit := fun w => (Exited code, w).

Definition lift {A} (r : result A) : M A :=
  fun w =>
    match r with
    | Ok a => (Done a, w)
    | Throw e => (Thrown e, w)
    end.

Definition on_disk (op : FS -> result FS) : M unit :=
  fun w =>
    match op (disk w) with
    | Ok d => (Done tt, {| disk := d; console := console w |})
    | Throw e => (Thrown e, w)
    end.

Definition fs_existsSync (p : str) : M bool :=
  fun w => (Done (existsSync (disk w) p), w).
Definition fs_readFileSync (p : str) : M str :=
  fun w => lift (readFileSync (disk w) p) w.
Definition fs_readdirSync (p : str) : M (list str) :=
  fun w => lift (readdirSync (disk w) p) w.
Definition fs_writeFileSync (p content : str) : M unit :=
  on_disk (fun d => writeFileSync d p content).
Definition fs_mkdirSync (p : str) : M unit :=
  on_disk (fun d => mkdirSync d p).
Definition fs_copyFileSync (src dest : str) : M unit :=
  on_disk (fun d => copyFileSync d src dest).

(** [for (const x of xs) body] and [xs.forEach(body)]. *)
Fixpoint for_each {A} (xs : list A) (body : A -> M unit) : M unit :=
  match xs with
  | [] => ret tt
  | x :: xs' => body x ;; for_each xs' body
  end.

(** Lines 8-9. *)
Definition rootDir : str := path_join [dirname__; lit ".."].
Definition brandingPath : str := path_join [dirname__; lit "branding.json"].

(** *** Stage 1: the manifest (lines 37-82) *)
Definition relativePackagePath (branding : BrandingConfig) : str :=
  or_else (match files branding with
           | Some f => package f
           | None => None
           end) "src/package.json".

Definition packageJsonPath (branding : BrandingConfig) : str :=
  path_join [rootDir; relativePackagePath branding].

Definition stage_package (branding : BrandingConfig) : M unit :=
  found <- fs_existsSync (packageJsonPath branding) ;;
  if found then
    packageJsonContent <- fs_readFileSync (packageJsonPath branding) ;;
    let packageJsonContent :=
      rewrite_manifest_text branding packageJsonContent in
    packageJson <- lift (JSON_parse packageJsonContent) ;;
    packageJson <- lift (overwrite_manifest branding packageJson) ;;
    fs_writeFileSync (packageJsonPath branding)
      (JSON_stringify packageJson ++ newline) ;;
    console_log (lit "Updated " ++ relativePackagePath branding)
  else
    console_error (relativePackagePath branding ++ lit " not found").

(** *** Stage 2: the localization map (lines 85-103) *)
Definition relativeNlsPath (branding : BrandingConfig) : str :=
  or_else (match files branding with
           | Some f => nls f
           | None => None
           end) "src/package.nls.json".

Definition nlsPath (branding : BrandingConfig) : str :=
  path_join [rootDir; relativeNlsPath branding].

Definition stage_nls (branding : BrandingConfig) : M unit :=
  found <- fs_existsSync (nlsPath branding) ;;
  if found then
    content <- fs_readFileSync (nlsPath branding) ;;
    nls <- lift (JSON_parse content) ;;
    nls <- lift (overwrite_nls branding nls) ;;
    fs_writeFileSync (nlsPath branding) (JSON_stringify nls ++ newline) ;;
    console_log (lit "Updated " ++ relativeNlsPath branding)
  else
    console_error (relativeNlsPath branding ++ lit " not found").

(** *** Stage 3: the icons (lines 106-138) *)

(** Lines 119-127, on the disk as it is when the pair is reached. *)
Definition resolve_icon_source (d : FS) (srcPath : str) : str :=
  if negb (path_isAbsolute srcPath) then
    let absoluteSrcPath := path_join [dirname__; srcPath] in
    if negb (existsSync d absoluteSrcPath)
    then path_join [rootDir; srcPath]
    else absoluteSrcPath
  else srcPath.

Definition iconsDir : str :=
  path_join [rootDir; lit "src"; lit "assets"; lit "icons"].

Definition icon_warning (absoluteSrcPath : str) : str :=
  lit "Icon source not found: " ++ absoluteSrcPath
  ++ lit " (checked relative to rebranding/ and root)".

(** The body of the loop over the icon pairs. *)
Definition copy_icon (pair : str * str) : M unit :=
  let '(destName, srcPath) := pair in
  if negb (truthy srcPath) then ret tt
  else
    fun w =>
      let absoluteSrcPath := resolve_icon_source (disk w) srcPath in
      let destPath := path_join [iconsDir; destName] in
      (found <- fs_existsSync absoluteSrcPath ;;
       if found then
         fs_copyFileSync absoluteSrcPath destPath ;;
         console_log (lit "Copied icon " ++ destName)
       else
         console_warn (icon_warning absoluteSrcPath)) w.

Definition stage_icons (branding : BrandingConfig) : M unit :=
  match icons branding with
  | Some entries =>
    found <- fs_existsSync iconsDir ;;
    (if negb found then fs_mkdirSync iconsDir else ret tt) ;;
    for_each entries copy_icon
  | None => ret tt
  end.

(** *** Stage 4: the locale files (lines 141-177) *)
Definition localesDir : str :=
  path_join [rootDir; lit "webview-ui/src/i18n/locales/en"].

Definition rewrite_locale_file (branding : BrandingConfig) (short : str)
    (file : str) : M unit :=
  if endsWith file ".json" then
    let filePath := path_join [localesDir; file] in
    content <- fs_readFileSync filePath ;;
    let content := rewrite_locale_text short (displayName branding) content in
    fs_writeFileSync filePath content ;;
    console_log (lit "Updated locale file: " ++ file)
  else ret tt.

Definition stage_locales (branding : BrandingConfig) : M unit :=
  found <- fs_existsSync localesDir ;;
  if found then
    files <- fs_readdirSync localesDir ;;
    let short := derive_shortName branding in
    for_each files (rewrite_locale_file branding short)
  else ret tt.

(** *** [main] (lines 26-178) *)

Definition stages (branding : BrandingConfig) : M unit :=
  stage_package branding ;;
  stage_nls branding ;;
  stage_icons branding ;;
  stage_locales branding.

Definition main : M unit :=
  found <- fs_existsSync brandingPath ;;
  (if negb found then
     console_error (lit "branding.json not found in rebranding directory.") ;;
     process_exit 1
   else ret tt) ;;
  raw <- fs_readFileSync brandingPath ;;
  branding <- lift (JSON_parse_branding raw) ;;
  console_log (lit "Applying branding: " ++ name branding) ;;
  stages branding.

(** *** The module body: [main().catch(console.error)] (line 180)

    A rejection of [main] is handed to [console.error] and the process
    then ends as a script that ran to its end does, with status 0; a
    call of [process.exit] ends it with the status passed. *)
Definition start (d : FS) : world := {| disk := d; console := [] |}.

Definition run (d : FS) : world * nat :=
  match main (start d) with
  | (Done _, w) => (w, 0)
  | (Thrown e, w) => (say (ErrorExn e) w, 0)
  | (Exited code, w) => (w, code)
  end.

End Script.

Notation "x <- m ;; k" := (bind m (fun x => k))
  (at level 61, m at next level, right associativity).
Notation "m ;; k" := (bind m (fun _ => k))
  (at level 61, right associativity).

(** ** The specification's reading of [shortName]

    Section 3 of the specification derives [shortName] as "the first
    whitespace-delimited token of displayName, falling back to the full
    displayName if splitting yields nothing".  [spec_shortName] follows
    these words; it is compared with [derive_shortName] below. *)
Definition is_whitespace (c : ascii) : bool :=
  match c with
  | " "%char | "009"%char | "010"%char | "011"%char | "012"%char
  | "013"%char => true
  | _ => false
  end.

Fixpoint first_token (delimiter : ascii -> bool) (s : str) : str :=
  match s with
  | [] => []
  | c :: s' => if delimiter c then [] else c :: first_token delimiter s'
  end.

(** The one delimiter of the source's [split(" ")]. *)
Definition is_space (c : ascii) : bool := Ascii.eqb " " c.

Definition spec_shortName (displayName : str) : str :=
  match first_token is_whitespace displayName with
  | [] => displayName
  | c :: t => c :: t
  end.

(** ** An in-memory platform

    A small instance of [Node] on which the script runs by computation:
    the disk is a table from paths to files and directories, [path.join]
    puts a slash between its segments, and the JSON codec knows the
    finitely many documents it is given and rejects every other text. *)
Module Mem.

Inductive entry :=
| File (content : str)
| Dir (names : list str).

Definition table := list (str * entry).

Fixpoint lookup (d : table) (p : str) : option entry :=
  match d with
  | [] => None
  | (p', e) :: rest => if str_eqb p' p then Some e else lookup rest p
  end.

Fixpoint update (d : table) (p : str) (e : entry) : table :=
  match d with
  | [] => [(p, e)]
  | (p', e') :: rest =>
    if str_eqb p' p then (p', e) :: rest else (p', e') :: update rest p e
  end.

Definition exists_ (d : table) (p : str) : bool :=
  match lookup d p with
  | Some _ => true
  | None => false
  end.

Definition read (d : table) (p : str) : result str :=
  match lookup d p with
  | Some (File c) => Ok c
  | Some (Dir _) => Throw (SystemError "EISDIR" p)
  | None => Throw (SystemError "ENOENT" p)
  end.

Definition write (d : table) (p content : str) : result table :=
  match lookup d p with
  | Some (Dir _) => Throw (SystemError "EISDIR" p)
  | _ => Ok (update d p (File content))
  end.

Definition mkdir (d : table) (p : str) : result table :=
  match lookup d p with
  | Some (File _) => Throw (SystemError "EEXIST" p)
  | Some (Dir _) => Ok d
  | None => Ok (update d p (Dir []))
  end.

Definition copy (d : table) (src dest : str) : result table :=
  match lookup d src with
  | Some (File c) => write d dest c
  | Some (Dir _) => Throw (SystemError "EISDIR" src)
  | None => Throw (SystemError "ENOENT" src)
  end.

Definition readdir (d : table) (p : str) : result (list str) :=
  match lookup d p with
  | Some (Dir names) => Ok names
  | Some (File _) => Throw (SystemError "ENOTDIR" p)
  | None => Throw (SystemError "ENOENT" p)
  end.

Definition isAbsolute (p : str) : bool := starts_with p "/".

Definition parse_from {A} (known : list (str * A)) (text : str) : result A :=
  match find (fun kv => str_eqb (fst kv) text) known with
  | Some kv => Ok (snd kv)
  | None => Throw (SyntaxError text)
  end.

(** Prints the named properties of a document that are strings, one per
    line behind a tab. *)
Definition stringify (doc : json) : str :=
  let line (kv : str * json) : str :=
    match snd kv with
    | JString s =>
      lit (String "010" (String "009" "")) ++ fst kv ++ lit ": " ++ s
    | _ => []
    end in
  match doc with
  | JObject ps => lit "{" ++ concat (map line ps) ++ lit (String "010" "}")
  | JArray _ _ => lit "[]"
  | _ => lit "null"
  end.

Definition platform (brandings : list (str * BrandingConfig))
    (documents : list (str * json)) : Node :=
  {| FS := table;
     existsSync := exists_;
     readFileSync := read;
     writeFileSync := write;
     mkdirSync := mkdir;
     copyFileSync := copy;
     readdirSync := readdir;
     path_join := fun segments => join segments "/";
     path_isAbsolute := isAbsolute;
     JSON_parse := parse_from documents;
     JSON_parse_branding := parse_from brandings;
     JSON_stringify := stringify;
     dirname__ := lit "/repo/rebranding" |}.

End Mem.

(** A configuration used in the examples below. *)
Definition jack : BrandingConfig :=
  {| name := lit "jack-code";
     displayName := lit "Jack Assistant";
     publisher := lit "jackcode";
     description := lit "An assistant";
     outputChannelName := lit "Jack";
     repository := lit "https://example.org/jack.git";
     homepage := [];
     files := None;
     icons := None;
     shortName := None |}.

(** A configuration whose identifiers hold the legacy tokens. *)
Definition kilopro : BrandingConfig :=
  {| name := lit "kilo-code-pro";
     displayName := lit "KiloPro";
     publisher := lit "kilopro";
     description := lit "A fork";
     outputChannelName := lit "KiloPro";
     repository := [];
     homepage := [];
     files := None;
     icons := None;
     shortName := None |}.

(** A configuration whose display name is two words with a tab between
    them. *)
Definition tabbed : BrandingConfig :=
  {| name := lit "jack-code";
     displayName := lit "Jack" ++ ["009"%char] ++ lit "Assistant";
     publisher := lit "jackcode";
     description := lit "An assistant";
     outputChannelName := lit "Jack";
     repository := [];
     homepage := [];
     files := None;
     icons := None;
     shortName := None |}.

(** The in-memory platform with one configuration document and the empty
    object as the only JSON text it parses, and disks for it: one with a
    manifest that is not JSON, one with the configuration alone, one
    with icon sources beside the configuration, under the root and at an
    absolute path. *)
Definition demo : Node :=
  Mem.platform [(lit "<jack>", jack)] [(lit "{}", JObject [])].

Definition disk_malformed : Mem.table :=
  [(lit "/repo/rebranding/branding.json", Mem.File "<jack>");
   (lit "/repo/rebranding/../src/package.json", Mem.File "{")].

Definition disk_bare : Mem.table :=
  [(lit "/repo/rebranding/branding.json", Mem.File "<jack>")].

Definition disk_icons : Mem.table :=
  [(lit "/repo/rebranding/logo.png", Mem.File "PNG1");
   (lit "/repo/rebranding/../art/dark.png", Mem.File "PNG2");
   (lit "/icons/light.png", Mem.File "PNG3")].

(** ** Notions used in Part IX *)

(** The names stage 1 assigns (lines 61-73). *)
Definition manifest_known_keys : list str :=
  [lit "name"; lit "publisher"; lit "description"; lit "repository";
   lit "homepage"].

(** [has_key props k]: [props] holds a property named [k]. *)
Definition has_key (props : list (str * json)) (k : str) : bool :=
  existsb (fun kv => str_eqb (fst kv) k) props.

(** [keeps_keys ps ps']: [ps'] has the names of [ps] at their places and,
    behind them, names that [ps] does not have. *)
Definition keeps_keys (ps ps' : list (str * json)) : Prop :=
  exists extra,
    map fst ps' = map fst ps ++ extra /\
    forall k, In k extra -> ~ In k (map fst ps).

(** [no_exit m]: the computation never leaves through [process.exit]. *)
Definition no_exit {node : Node} {A} (m : M A) : Prop :=
  forall w c w', m w <> (Exited c, w').

(** The configuration [jack] with an [icons] object. *)
Definition jack_with_icons (entries : list (str * str)) : BrandingConfig :=
  {| name := name jack;
     displayName := displayName jack;
     publisher := publisher jack;
     description := description jack;
     outputChannelName := outputChannelName jack;
     repository := repository jack;
     homepage := homepage jack;
     files := files jack;
     icons := Some entries;
     shortName := shortName jack |}.

(** Two disks with the locale directory: one whose entries are no JSON
    files, one with a JSON file that does not mention the legacy
    brand. *)
Definition disk_locales_other : Mem.table :=
  [(lit "/repo/rebranding/../webview-ui/src/i18n/locales/en",
    Mem.Dir [lit "README.md"; lit "notes.txt"])].

Definition disk_locales_clean : Mem.table :=
  [(lit "/repo/rebranding/../webview-ui/src/i18n/locales/en/chat.json",
    Mem.File "{ }")].

(** A disk with the locale directory and, in it, a directory whose name
    ends with [.json]. *)
Definition disk_locales_nested : Mem.table :=
  [(lit "/repo/rebranding/../webview-ui/src/i18n/locales/en",
    Mem.Dir [lit "old.json"]);
   (lit "/repo/rebranding/../webview-ui/src/i18n/locales/en/old.json",
    Mem.Dir [])].

(** A disk whose configuration document is not JSON. *)
Definition disk_bad_config : Mem.table :=
  [(lit "/repo/rebranding/branding.json", Mem.File "{ name: ")].

(** The disk of the icon examples with a directory where the copy of
    [b.png] is to be written. *)
Definition disk_blocked : Mem.table :=
  disk_icons
  ++ [(lit "/repo/rebranding/../src/assets/icons/b.png", Mem.Dir [])].

(** ** A platform that prints flat documents as JSON

    [flat ps] is the object whose properties [ps] are strings, and
    [flat_text ps] is the text that [JSON.stringify(doc, null, "\t")]
    prints for it when no string needs an escape.  The platform
    [flat_platform documents] has the disk of [Mem], prints with
    [print_flat], and parses the printed text of each listed document,
    with or without the line feed that line 78 writes behind it, to that
    document. *)
Definition quote_mark : str := ["034"%char].
Definition tab_stop : str := ["009"%char].

Definition flat (ps : list (str * str)) : json :=
  JObject (map (fun kv => (fst kv, JString (snd kv))) ps).

Definition flat_line (kv : str * str) : str :=
  tab_stop ++ quote_mark ++ fst kv ++ quote_mark ++ lit ": "
  ++ quote_mark ++ snd kv ++ quote_mark.

Definition flat_text (ps : list (str * str)) : str :=
  match ps with
  | [] => lit "{}"
  | _ =>
    lit "{" ++ newline ++ join (map flat_line ps) (lit "," ++ newline)
    ++ newline ++ lit "}"
  end.

Definition string_props (ps : list (str * json)) : list (str * str) :=
  flat_map (fun kv =>
              match snd kv with
              | JString s => [(fst kv, s)]
              | _ => []
              end) ps.

Definition print_flat (doc : json) : str :=
  match doc with
  | JObject ps => flat_text (string_props ps)
  | JArray _ _ => lit "[]"
  | _ => lit "null"
  end.

Definition flat_platform (documents : list (list (str * str))) : Node :=
  {| FS := Mem.table;
     existsSync := Mem.exists_;
     readFileSync := Mem.read;
     writeFileSync := Mem.write;
     mkdirSync := Mem.mkdir;
     copyFileSync := Mem.copy;
     readdirSync := Mem.readdir;
     path_join := fun segments => join segments "/";
     path_isAbsolute := Mem.isAbsolute;
     JSON_parse :=
       Mem.parse_from
         (flat_map (fun ps => [(flat_text ps, flat ps);
                               (flat_text ps ++ newline, flat ps)])
            documents);
     JSON_parse_branding := Mem.parse_from [];
     JSON_stringify := print_flat;
     dirname__ := lit "/repo/rebranding" |}.

(** A configuration whose short name ends with a code unit of [Kilo],
    and one whose description holds a legacy token. *)
Definition gemini : BrandingConfig :=
  {| name := lit "gemini-code";
     displayName := lit "Gemini Assistant";
     publisher := lit "geminicode";
     description := lit "An assistant";
     outputChannelName := lit "Gemini";
     repository := [];
     homepage := [];
     files := None;
     icons := None;
     shortName := None |}.

Definition forked : BrandingConfig :=
  {| name := lit "fork-code";
     displayName := lit "Fork Assistant";
     publisher := lit "forkcode";
     description := lit "A fork of kilocode";
     outputChannelName := lit "Fork";
     repository := [];
     homepage := [];
     files := None;
     icons := None;
     shortName := None |}.

(** A manifest of four string properties. *)
Definition manifest_of (name publisher description main : str)
  : list (str * str) :=
  [(lit "name", name); (lit "publisher", publisher);
   (lit "description", description); (lit "main", main)].

(** The manifest before the rebranding, and what the configurations make
    of it.  For [kilopro]: after the textual passes of the first run,
    after its overwrite, after the textual passes of the second run and
    after its overwrite.  For [gemini]: after the textual passes of the
    first run and after its overwrite.  For [forked]: after the textual
    passes of the first run, after its overwrite and after the textual
    passes of the second run. *)
Definition manifest_legacy : list (str * str) :=
  manifest_of "kilo-code" "kilocode" "Open source agent" "./dist/kilo-code.js".

Definition manifest_kilopro_passes : list (str * str) :=
  manifest_of "kilo-code-pro" "kilopro" "Open source agent"
    "./dist/kilo-code-pro.js".

Definition manifest_kilopro : list (str * str) :=
  manifest_of "kilo-code-pro" "kilopro" "A fork" "./dist/kilo-code-pro.js".

Definition manifest_kilopro_passes_again : list (str * str) :=
  manifest_of "kilo-code-pro-pro" "kilopro" "A fork"
    "./dist/kilo-code-pro-pro.js".

Definition manifest_kilopro_again : list (str * str) :=
  manifest_of "kilo-code-pro" "kilopro" "A fork" "./dist/kilo-code-pro-pro.js".

Definition manifest_gemini_passes : list (str * str) :=
  manifest_of "gemini-code" "geminicode" "Open source agent"
    "./dist/gemini-code.js".

Definition manifest_gemini : list (str * str) :=
  manifest_of "gemini-code" "geminicode" "An assistant" "./dist/gemini-code.js".

Definition manifest_forked_passes : list (str * str) :=
  manifest_of "fork-code" "forkcode" "Open source agent" "./dist/fork-code.js".

Definition manifest_forked : list (str * str) :=
  manifest_of "fork-code" "forkcode" "A fork of kilocode" "./dist/fork-code.js".

Definition manifest_forked_passes_again : list (str * str) :=
  manifest_of "fork-code" "forkcode" "A fork of forkcode" "./dist/fork-code.js".

Definition flat_demo : Node :=
  flat_platform
    [manifest_legacy; manifest_kilopro_passes; manifest_kilopro;
     manifest_kilopro_passes_again; manifest_kilopro_again;
     manifest_gemini_passes; manifest_gemini;
     manifest_forked_passes; manifest_forked; manifest_forked_passes_again].

(** A disk with the manifest before the rebranding and one locale file,
    and the disks after stage 1 has run on it with [gemini] and with
    [forked]. *)
Definition manifest_path : str := lit "/repo/rebranding/../src/package.json".

Definition locale_path : str :=
  lit "/repo/rebranding/../webview-ui/src/i18n/locales/en/chat.json".

Definition disk_with_manifest (ps : list (str * str)) : Mem.table :=
  [(manifest_path, Mem.File (flat_text ps ++ newline));
   (lit "/repo/rebranding/../webview-ui/src/i18n/locales/en",
    Mem.Dir [lit "chat.json"]);
   (locale_path, Mem.File "Kilo said hi")].

Definition disk_legacy : Mem.table := disk_with_manifest manifest_legacy.
Definition disk_gemini : Mem.table := disk_with_manifest manifest_gemini.
Definition disk_forked : Mem.table := disk_with_manifest manifest_forked.

(* ================================================================= *)
(** * Part II: the laws of the string operations *)
(* ================================================================= *)

Section StringLaws.

Implicit Types (s t u v find rep tok : str) (c : ascii).

Lemma str_eqb_eq a b : str_eqb a b = true <-> a = b.
Proof.
  revert b; induction a as [|x a IH]; intros [|y b]; simpl;
    try (split; [discriminate | discriminate]); try tauto.
  rewrite andb_true_iff, Ascii.eqb_eq, IH.
  split; [intros [-> ->]; reflexivity | intros H; inversion H; auto].
Qed.

Lemma str_eqb_refl a : str_eqb a a = true.
Proof. apply str_eqb_eq; reflexivity. Qed.

Lemma str_eqb_neq a b : str_eqb a b = false <-> a <> b.
Proof.
  rewrite <- str_eqb_eq. destruct (str_eqb a b); split; congruence.
Qed.

Lemma starts_with_iff s find :
  starts_with s find = true <-> exists r, s = find ++ r.
Proof.
  revert s; induction find as [|a f IH]; intros s; simpl.
  - split; [exists s; reflexivity | reflexivity].
  - destruct s as [|b s].
    + split; [discriminate | intros [r Hr]; discriminate].
    + rewrite andb_true_iff, Ascii.eqb_eq, IH. split.
      * intros [-> [r ->]]. exists r; reflexivity.
      * intros [r Hr]. inversion Hr; subst. split; [reflexivity | eauto].
Qed.

Lemma starts_with_app find r : starts_with (find ++ r) find = true.
Proof. apply starts_with_iff. eauto. Qed.

Lemma starts_with_extend s t find :
  starts_with s find = true -> starts_with (s ++ t) find = true.
Proof.
  rewrite !starts_with_iff. intros [r ->]. exists (r ++ t).
  now rewrite app_assoc.
Qed.

Lemma starts_with_skipn s find :
  starts_with s find = true -> s = find ++ skipn (length find) s.
Proof.
  intros H. apply starts_with_iff in H as [r ->].
  now rewrite skipn_app, skipn_all, Nat.sub_diag.
Qed.

Lemma includes_iff s tok : includes s tok = true <-> occurs tok s.
Proof.
  unfold occurs. induction s as [|c s IH].
  - simpl. rewrite orb_false_r, starts_with_iff. split.
    + intros [r Hr]. exists [], r. exact Hr.
    + intros (u & v & H). destruct u; [|discriminate]. eauto.
  - simpl. rewrite orb_true_iff, starts_with_iff, IH. split.
    + intros [[r Hr] | (u & v & ->)].
      * exists [], r. exact Hr.
      * exists (c :: u), v. reflexivity.
    + intros (u & v & H). destruct u as [|c' u].
      * left. exists v. exact H.
      * right. inversion H; subst. eauto.
Qed.

Lemma includes_false s tok : includes s tok = false <-> ~ occurs tok s.
Proof.
  rewrite <- includes_iff. destruct (includes s tok); split; congruence.
Qed.

Lemma occurs_inside tok a s b : occurs tok s -> occurs tok (a ++ s ++ b).
Proof.
  intros (u & v & ->). exists (a ++ u), (v ++ b).
  now rewrite <- !app_assoc.
Qed.

Lemma occurs_left tok s b : occurs tok s -> occurs tok (s ++ b).
Proof. intros H. apply (occurs_inside [] b H). Qed.

Lemma occurs_right tok a s : occurs tok s -> occurs tok (a ++ s).
Proof.
  intros H. generalize (occurs_inside a [] H). now rewrite app_nil_r.
Qed.

(** *** The scan *)

Lemma split_scan_skip R k s :
  split_scan R k s = split_scan R 0 (skipn k s).
Proof.
  revert s; induction k as [|k IH]; intros s; [reflexivity|].
  destruct s as [|c s]; [reflexivity|]. simpl. apply IH.
Qed.

Lemma split_scan_nonempty R k s : split_scan R k s <> [].
Proof.
  revert k; induction s as [|c s IH]; intros k; simpl; [discriminate|].
  destruct k; [|apply IH].
  destruct (starts_with (c :: s) R); [discriminate|].
  destruct (split_scan R 0 s); discriminate.
Qed.

Lemma join_cons p ps sep :
  ps <> [] -> join (p :: ps) sep = p ++ sep ++ join ps sep.
Proof. destruct ps; [congruence | reflexivity]. Qed.

Lemma join_push c p ps sep : join ((c :: p) :: ps) sep = c :: join (p :: ps) sep.
Proof. destruct ps; reflexivity. Qed.

(** *** The loop of the standard

    ECMAScript states [split] with the index [j] of the leftmost
    occurrence of the separator at or behind the end [i] of the last
    match: the piece from [i] to [j] is emitted and the search resumes
    at [j + length R]; when no occurrence is left, the rest of the text
    is the last piece.  The scan satisfies both equations. *)

Lemma split_absent s R : R <> [] -> includes s R = false -> split s R = [s].
Proof.
  intros Hne. destruct R as [|r R]; [congruence|]. unfold split.
  induction s as [|c s IH]; [reflexivity|].
  cbn [includes]. intros H. apply orb_false_iff in H as [H1 H2].
  cbn [split_scan]. rewrite H1, (IH H2). reflexivity.
Qed.

Lemma split_leftmost u v R :
  R <> [] ->
  (forall i, i < length u -> starts_with (skipn i (u ++ R ++ v)) R = false) ->
  split (u ++ R ++ v) R = u :: split v R.
Proof.
  intros Hne. destruct R as [|r R]; [congruence|]. unfold split.
  induction u as [|c u IH]; intros H.
  - cbn [app split_scan].
    change (r :: R ++ v) with ((r :: R) ++ v). rewrite starts_with_app.
    rewrite split_scan_skip. f_equal. f_equal.
    cbn [length]. rewrite Nat.sub_succ, Nat.sub_0_r.
    now rewrite skipn_app, skipn_all, Nat.sub_diag.
  - assert (H0 := H 0 ltac:(simpl; lia)).
    change (starts_with (c :: (u ++ (r :: R) ++ v)) (r :: R) = false) in H0.
    change ((c :: u) ++ (r :: R) ++ v) with (c :: (u ++ (r :: R) ++ v)).
    cbn [split_scan]. rewrite H0.
    rewrite IH; [reflexivity|].
    intros i Hi. apply (H (S i)). simpl. lia.
Qed.

(** *** The recursion equations of [replaceAll]

    For a separator that is not empty, [replaceAll] is the leftmost,
    non-overlapping replacement: at a position where [find] begins, the
    replacement is emitted and the scan resumes behind the match;
    elsewhere one code unit is copied. *)

Lemma replaceAll_nil find rep : find <> [] -> replaceAll [] find rep = [].
Proof. destruct find; [congruence | reflexivity]. Qed.

Lemma replaceAll_match s find rep :
  find <> [] -> starts_with s find = true ->
  replaceAll s find rep = rep ++ replaceAll (skipn (length find) s) find rep.
Proof.
  intros Hne Hm. destruct find as [|f find]; [congruence|].
  destruct s as [|c s]; [discriminate|].
  unfold replaceAll, split. cbn [split_scan]. rewrite Hm.
  rewrite join_cons by apply split_scan_nonempty.
  rewrite split_scan_skip.
  replace (length (f :: find) - 1) with (length find) by (simpl; lia).
  reflexivity.
Qed.

Lemma replaceAll_copy c s find rep :
  find <> [] -> starts_with (c :: s) find = false ->
  replaceAll (c :: s) find rep = c :: replaceAll s find rep.
Proof.
  intros Hne Hm. destruct find as [|f find]; [congruence|].
  unfold replaceAll, split. cbn [split_scan]. rewrite Hm.
  destruct (split_scan (f :: find) 0 s) as [|p ps] eqn:E.
  - now apply split_scan_nonempty in E.
  - apply join_push.
Qed.

Lemma replaceAll_match_app find r rep :
  find <> [] ->
  replaceAll (find ++ r) find rep = rep ++ replaceAll r find rep.
Proof.
  intros Hne. rewrite replaceAll_match by (auto using starts_with_app).
  now rewrite skipn_app, skipn_all, Nat.sub_diag.
Qed.

(** A text without an occurrence of [find] is returned as it is. *)
Lemma replaceAll_absent s find rep :
  includes s find = false -> replaceAll s find rep = s.
Proof.
  intros H. assert (Hne : find <> []).
  { intros ->. destruct s; discriminate. }
  induction s as [|c s IH]; [now apply replaceAll_nil|].
  simpl in H. apply orb_false_iff in H as [H1 H2].
  rewrite replaceAll_copy by assumption. f_equal. auto.
Qed.

(** The first occurrence: either [find] is absent, or the text is cut at
    its leftmost occurrence, which is replaced, and the scan goes on
    behind it. *)
Lemma replaceAll_first s find rep :
  find <> [] ->
  (includes s find = false /\ replaceAll s find rep = s) \/
  (exists u v, s = u ++ find ++ v /\ includes u find = false /\
     replaceAll s find rep = u ++ rep ++ replaceAll v find rep).
Proof.
  intros Hne. induction s as [|c s IH].
  - left. split; [|now apply replaceAll_nil].
    destruct find; [congruence | reflexivity].
  - destruct (starts_with (c :: s) find) eqn:Hm.
    + right. apply starts_with_iff in Hm as Hr. destruct Hr as [r Hr].
      exists [], r. rewrite Hr. split; [reflexivity|]. split.
      * destruct find; [congruence | reflexivity].
      * now apply replaceAll_match_app.
    + rewrite replaceAll_copy by assumption.
      destruct IH as [[Ha Hb] | (u & v & Hs & Hu & Hr)].
      * left. simpl. rewrite Hm, Ha, Hb. auto.
      * right. exists (c :: u), v. rewrite Hr, Hs. repeat split.
        simpl. rewrite Hu, orb_false_r.
        destruct (starts_with (c :: u) find) eqn:E; [|reflexivity].
        apply starts_with_extend with (t := find ++ v) in E.
        simpl in E. rewrite <- Hs in E. simpl in Hm. congruence.
Qed.

(** Joining the pieces with the separator gives the text back. *)
Lemma replaceAll_same s find : find <> [] -> replaceAll s find find = s.
Proof.
  intros Hne. remember (length s) as n eqn:Hn.
  revert s Hn. induction n as [n IH] using lt_wf_ind. intros s Hn.
  destruct (@replaceAll_first s find find Hne)
    as [[_ H] | (u & v & Es & _ & ->)]; [exact H|].
  rewrite Es. do 2 f_equal. apply (IH (length v)); [|reflexivity].
  subst n s. rewrite !length_app. destruct find; [congruence | simpl; lia].
Qed.
(** *** Cutting a text where no occurrence can lie across *)

Lemma no_straddle_tail find c L Rt :
  no_straddle find (c :: L) Rt -> no_straddle find L Rt.
Proof.
  intros H f1 f2 l0 r0 Hf H1 H2 HL HR.
  apply (H f1 f2 (c :: l0) r0); subst; auto.
Qed.

Lemma no_straddle_drop find a L Rt :
  no_straddle find (a ++ L) Rt -> no_straddle find L Rt.
Proof.
  induction a as [|c a IH]; [auto|].
  intros H. apply IH. eapply no_straddle_tail. exact H.
Qed.

Lemma replaceAll_cut find rep L Rt :
  find <> [] -> no_straddle find L Rt ->
  replaceAll (L ++ Rt) find rep
  = replaceAll L find rep ++ replaceAll Rt find rep.
Proof.
  intros Hne. remember (length L) as n eqn:Hn.
  revert L Hn. induction n as [n IH] using lt_wf_ind. intros L Hn Hns.
  destruct L as [|c L].
  - now rewrite replaceAll_nil.
  - destruct (starts_with ((c :: L) ++ Rt) find) eqn:Hm.
    + apply starts_with_iff in Hm as Hr. destruct Hr as [r Hr].
      apply app_eq_app in Hr as [l [[HL HR] | [Hf HR]]].
      * (* [find] lies within [L] *)
        rewrite HL, <- app_assoc, !replaceAll_match_app by assumption.
        rewrite <- app_assoc. f_equal.
        apply (IH (length l)); [|reflexivity|].
        -- subst n. rewrite HL, length_app.
           destruct find; [congruence | simpl; lia].
        -- apply no_straddle_drop with (a := find). now rewrite <- HL.
      * (* [find] would lie across the cut *)
        destruct l as [|x l].
        -- rewrite app_nil_r in Hf. subst find. simpl in HR. subst r.
           rewrite replaceAll_match_app by assumption.
           rewrite <- (app_nil_r (c :: L)) at 2.
           rewrite replaceAll_match_app, replaceAll_nil by assumption.
           now rewrite app_nil_r.
        -- exfalso. apply (Hns (c :: L) (x :: l) [] r); auto; discriminate.
    + assert (Hm' : starts_with (c :: L) find = false).
      { destruct (starts_with (c :: L) find) eqn:E; [|reflexivity].
        apply starts_with_extend with (t := Rt) in E. congruence. }
      simpl app. rewrite !replaceAll_copy by assumption.
      simpl. f_equal. apply (IH (length L)); [subst; simpl; lia | reflexivity|].
      eapply no_straddle_tail; eauto.
Qed.


Lemma agree_common x y p q : x ++ p = y ++ q -> agree x y = true.
Proof.
  revert y; induction x as [|a x IH]; intros [|b y] H; simpl; auto.
  inversion H; subst. rewrite Ascii.eqb_refl. simpl. eauto.
Qed.

(** [clear_cut] decides a sufficient condition for [no_straddle] from
    the end of the left text and the start of the right one. *)
Lemma clear_cut_sound find sa pb a b :
  clear_cut find sa pb = true -> no_straddle find (a ++ sa) (pb ++ b).
Proof.
  unfold clear_cut. rewrite forallb_forall.
  intros H f1 f2 l0 r0 Hf H1 H2 HL HR.
  specialize (H (length f1)).
  assert (Hin : In (length f1) (seq 1 (length find - 1))).
  { apply in_seq. subst find. rewrite length_app.
    destruct f1; [congruence|]. destruct f2; [congruence|]. simpl. lia. }
  apply H in Hin. apply negb_true_iff, andb_false_iff in Hin.
  subst find. rewrite firstn_app, firstn_all, Nat.sub_diag in Hin.
  rewrite skipn_app, skipn_all, Nat.sub_diag in Hin.
  simpl in Hin. rewrite app_nil_r in Hin.
  destruct Hin as [Hin | Hin].
  - assert (E : rev f1 ++ rev l0 = rev sa ++ rev a).
    { rewrite <- !rev_app_distr. now f_equal. }
    apply agree_common in E. congruence.
  - symmetry in HR. apply agree_common in HR. congruence.
Qed.

Lemma replaceAll_clear_cut find rep sa pb a b :
  find <> [] -> clear_cut find sa pb = true ->
  replaceAll ((a ++ sa) ++ pb ++ b) find rep
  = replaceAll (a ++ sa) find rep ++ replaceAll (pb ++ b) find rep.
Proof.
  intros Hne Hc. apply replaceAll_cut; [assumption|].
  now apply clear_cut_sound.
Qed.

(** Every occurrence of an unbordered token is replaced, wherever it is
    embedded. *)
Lemma replaceAll_token find rep u v :
  find <> [] -> unbordered find = true ->
  replaceAll (u ++ find ++ v) find rep
  = replaceAll u find rep ++ rep ++ replaceAll v find rep.
Proof.
  intros Hne Hb.
  rewrite <- (app_nil_r u) at 1.
  rewrite replaceAll_clear_cut by assumption.
  now rewrite app_nil_r, replaceAll_match_app.
Qed.

(** A word that is inert for [find] is copied as it is. *)
Lemma replaceAll_inert find rep w u v :
  find <> [] -> inert find w = true ->
  replaceAll (u ++ w ++ v) find rep
  = replaceAll u find rep ++ w ++ replaceAll v find rep.
Proof.
  unfold inert. rewrite !andb_true_iff, negb_true_iff.
  intros Hne [[Hw Hl] Hr].
  rewrite <- (app_nil_r u) at 1.
  rewrite replaceAll_clear_cut, app_nil_r by assumption. f_equal.
  change (w ++ v) with (([] ++ w) ++ [] ++ v).
  rewrite replaceAll_clear_cut by assumption. simpl.
  now rewrite replaceAll_absent.
Qed.

Lemma replaceAll_inert_head find rep w v :
  find <> [] -> inert find w = true ->
  replaceAll (w ++ v) find rep = w ++ replaceAll v find rep.
Proof.
  intros Hne Hw.
  generalize (@replaceAll_inert find rep w [] v Hne Hw).
  now rewrite replaceAll_nil.
Qed.

Lemma replaceAll_inert_tail find rep w u :
  find <> [] -> inert find w = true ->
  replaceAll (u ++ w) find rep = replaceAll u find rep ++ w.
Proof.
  intros Hne Hw. rewrite <- (app_nil_r w) at 1.
  rewrite (@replaceAll_inert find rep w u [] Hne Hw).
  now rewrite replaceAll_nil, app_nil_r.
Qed.

(** *** Replacements that cannot complete a token *)

Lemma mem_In c s : mem c s = true <-> In c s.
Proof.
  unfold mem. rewrite existsb_exists. split.
  - intros (x & Hx & E). apply Ascii.eqb_eq in E. now subst.
  - intros H. exists c. split; [assumption | apply Ascii.eqb_refl].
Qed.

Lemma last_app_nonempty (l l3 : str) d : l3 <> [] -> last (l ++ l3) d = last l3 d.
Proof.
  intros H. induction l as [|x l IH]; [reflexivity|].
  simpl. destruct (l ++ l3) eqn:E; [|assumption].
  apply app_eq_nil in E as [_ E]. congruence.
Qed.

Lemma last_In (l : str) d : l <> [] -> In (last l d) l.
Proof.
  induction l as [|x l IH]; [congruence|]. intros _.
  destruct l as [|y l]; [left; reflexivity|].
  right. apply IH. discriminate.
Qed.

Lemma fresh_for_facts tok rep :
  fresh_for tok rep = true ->
  exists c rep', rep = c :: rep' /\ ~ occurs tok rep /\
    ~ In c (tl tok) /\ ~ In (last rep c) (removelast tok).
Proof.
  unfold fresh_for. destruct rep as [|c rep']; [discriminate|].
  rewrite !andb_true_iff, !negb_true_iff. intros [[H1 H2] H3].
  exists c, rep'. split; [reflexivity|].
  rewrite <- includes_false. split; [assumption|].
  rewrite <- !mem_In. split; congruence.
Qed.

(** An occurrence of [tok] that begins inside a copy of [rep] or at its
    first code unit lies behind that copy. *)
Lemma occurs_behind tok rep l y v :
  fresh_for tok rep = true ->
  rep ++ y = l ++ tok ++ v -> occurs tok y.
Proof.
  intros Hf E.
  apply fresh_for_facts in Hf as (c & rep' & Hrep & Hno & _ & Hlast).
  apply app_eq_app in E as [l3 [[Hr E] | [Hl E]]].
  - (* [tok] begins within [rep] *)
    apply app_eq_app in E as [l4 [[Ht E] | [H3 E]]].
    + (* [rep] ends within [tok] *)
      destruct l4 as [|x l4].
      * exfalso. apply Hno. rewrite app_nil_r in Ht. subst l3.
        exists l, []. now rewrite app_nil_r.
      * destruct l3 as [|z l3].
        -- simpl in Ht. exists [], v. subst. reflexivity.
        -- exfalso. apply Hlast. rewrite Hr.
           rewrite last_app_nonempty by discriminate.
           rewrite Ht, removelast_app by discriminate.
           apply in_or_app. left. apply last_In. discriminate.
    + exfalso. apply Hno. exists l, l4. now rewrite Hr, H3.
  - (* [l] reaches behind [rep] *)
    exists l3, v. exact E.
Qed.

Lemma occurs_around tok rep x y :
  fresh_for tok rep = true ->
  occurs tok (x ++ rep ++ y) -> occurs tok x \/ occurs tok y.
Proof.
  intros Hf (u & v & E).
  destruct (@fresh_for_facts tok rep Hf) as (c & rep' & Hrep & _ & Hhd & _).
  apply app_eq_app in E as [l [[Hx E] | [Hu E]]].
  - (* the occurrence begins within [x] *)
    apply app_eq_app in E as [l2 [[Ht E] | [Hl E]]].
    + destruct l as [|a l].
      * right. apply (@occurs_behind tok rep [] y v Hf).
        simpl in Ht. subst l2. exact E.
      * destruct l2 as [|b l2].
        -- left. rewrite app_nil_r in Ht. exists u, [].
           now rewrite Hx, Ht, app_nil_r.
        -- exfalso. apply Hhd. rewrite Hrep in E. inversion E; subst b.
           rewrite Ht. simpl. apply in_or_app. right. left. reflexivity.
    + left. exists u, l2. now rewrite Hx, Hl.
  - (* the occurrence begins behind the end of [x] *)
    right. apply (@occurs_behind tok rep l y v Hf). exact E.
Qed.

(** A fresh replacement brings no occurrence of [tok] into a text that
    has none. *)
Lemma replaceAll_keeps_absent tok find rep s :
  find <> [] -> fresh_for tok rep = true ->
  ~ occurs tok s -> ~ occurs tok (replaceAll s find rep).
Proof.
  intros Hne Hf. remember (length s) as n eqn:Hn.
  revert s Hn. induction n as [n IH] using lt_wf_ind. intros s Hn Hs.
  destruct (@replaceAll_first s find rep Hne)
    as [[_ ->] | (u & v & Es & _ & ->)]; [assumption|].
  intros Ho. apply (@occurs_around _ _ _ _ Hf) in Ho as [Ho | Ho].
  - apply Hs. rewrite Es. now apply occurs_left.
  - revert Ho. apply (IH (length v)); [|reflexivity|].
    + subst n s. rewrite !length_app. destruct find; [congruence|simpl; lia].
    + intros Ho. apply Hs. rewrite Es, app_assoc. now apply occurs_right.
Qed.

(** A replacement that is fresh for the token it replaces leaves no
    occurrence of that token. *)
Lemma replaceAll_removes find rep s :
  fresh_for find rep = true -> ~ occurs find (replaceAll s find rep).
Proof.
  intros Hf. assert (Hne : find <> []).
  { intros ->. destruct rep; discriminate. }
  remember (length s) as n eqn:Hn.
  revert s Hn. induction n as [n IH] using lt_wf_ind. intros s Hn.
  destruct (@replaceAll_first s find rep Hne)
    as [[Ha ->] | (u & v & Es & Hu & ->)].
  - now apply includes_false.
  - intros Ho. apply (@occurs_around _ _ _ _ Hf) in Ho as [Ho | Ho].
    + now apply includes_false in Hu.
    + revert Ho. apply (IH (length v)); [|reflexivity].
      subst n s. rewrite !length_app. destruct find; [congruence|simpl; lia].
Qed.

End StringLaws.

Section Cuts.

Implicit Types (s t u v a b find rep : str).

(** *** Where the searched string can reappear

    An occurrence of [find] in the result of [replaceAll] with a
    replacement that does not contain [find] is cut by the edge of a
    copy of the replacement: behind some non-empty proper prefix of the
    occurrence a copy of the replacement begins, or one ends there. *)
Lemma replaceAll_occurrence_is_cut find rep t a b :
  find <> [] -> includes rep find = false ->
  replaceAll t find rep = a ++ find ++ b ->
  exists f1 f2,
    find = f1 ++ f2 /\ f1 <> [] /\ f2 <> [] /\
    ((exists B, f2 ++ b = rep ++ B) \/ (exists A, a ++ f1 = A ++ rep)).
Proof.
  intros Hne Hrep. remember (length t) as n eqn:Hn.
  revert t Hn a b. induction n as [n IH] using lt_wf_ind.
  intros t Hn a b E.
  destruct (@replaceAll_first t find rep Hne)
    as [[Ha Hs] | (u & v & Et & Hu & Hs)]; rewrite Hs in E.
  - exfalso. apply includes_false in Ha. apply Ha. rewrite E. now exists a, b.
  - assert (Hv : length v < n).
    { subst n t. rewrite !length_app. destruct find; [congruence | simpl; lia]. }
    (* an occurrence that begins in the replacement or behind it *)
    assert (Hbehind : forall l,
      a = u ++ l -> rep ++ replaceAll v find rep = l ++ find ++ b ->
      exists f1 f2,
        find = f1 ++ f2 /\ f1 <> [] /\ f2 <> [] /\
        ((exists B, f2 ++ b = rep ++ B) \/ (exists A, a ++ f1 = A ++ rep))).
    { intros l Ea E'.
      assert (Hin : forall a',
        replaceAll v find rep = a' ++ find ++ b -> a = u ++ rep ++ a' ->
        exists f1 f2,
          find = f1 ++ f2 /\ f1 <> [] /\ f2 <> [] /\
          ((exists B, f2 ++ b = rep ++ B) \/ (exists A, a ++ f1 = A ++ rep))).
      { intros a' Ev Ea'.
        destruct (IH (length v) Hv v eq_refl a' b Ev)
          as (f1 & f2 & Hf & H1 & H2 & [HB | [A HA]]).
        - exists f1, f2. auto.
        - exists f1, f2. repeat (split; [assumption|]). right.
          exists (u ++ rep ++ A). rewrite Ea', <- !app_assoc. now rewrite HA. }
      apply app_eq_app in E' as [l3 [[Hs3 E3] | [Hl3 E3]]].
      - apply app_eq_app in E3 as [l4 [[Hf4 E4] | [H3 E4]]].
        + destruct l4 as [|x l4].
          * exfalso. apply includes_false in Hrep. apply Hrep.
            rewrite app_nil_r in Hf4. subst l3. exists l, []. 
            now rewrite app_nil_r.
          * destruct l3 as [|y l3].
            -- cbn [app] in Hf4. rewrite app_nil_r in Hs3. subst l.
               apply (Hin []); [now rewrite E4, Hf4 | now rewrite Ea, app_nil_r].
            -- exists (y :: l3), (x :: l4).
               repeat (split; [assumption || discriminate|]). right.
               exists u. now rewrite Ea, <- app_assoc, <- Hs3.
        + exfalso. apply includes_false in Hrep. apply Hrep.
          exists l, l4. now rewrite Hs3, H3.
      - apply (Hin l3); [exact E3 | now rewrite Ea, Hl3]. }
    apply app_eq_app in E as [l [[Hx E] | [Hx E]]].
    + apply app_eq_app in E as [l2 [[Hf E] | [Hl E]]].
      * destruct l2 as [|x l2].
        -- exfalso. apply includes_false in Hu. apply Hu.
           rewrite app_nil_r in Hf. subst l. exists a, [].
           now rewrite app_nil_r.
        -- destruct l as [|y l].
           ++ apply (Hbehind []); [rewrite app_nil_r in Hx; now rewrite Hx, app_nil_r | ].
              cbn [app] in *. now rewrite E, Hf.
           ++ exists (y :: l), (x :: l2).
              repeat (split; [assumption || discriminate|]). left.
              exists (replaceAll v find rep). now rewrite E.
      * exfalso. apply includes_false in Hu. apply Hu.
        exists a, l2. now rewrite Hx, Hl.
    + apply (Hbehind l); [exact Hx | exact E].
Qed.

(** A replacement that is inert for the searched string leaves no
    occurrence of it. *)
Lemma replaceAll_removes_inert find rep t :
  inert find rep = true -> ~ occurs find (replaceAll t find rep).
Proof.
  unfold inert. rewrite !andb_true_iff, negb_true_iff.
  intros [[Hrep Hl] Hr] (a & b & E).
  assert (Hne : find <> []).
  { intros ->. destruct rep; discriminate. }
  destruct (@replaceAll_occurrence_is_cut find rep t a b Hne Hrep E)
    as (f1 & f2 & Hf & H1 & H2 & [[B HB] | [A HA]]).
  - apply (@clear_cut_sound find [] rep f1 B Hl f1 f2 [] b); auto.
    now rewrite app_nil_r.
  - apply (@clear_cut_sound find rep [] A f2 Hr f1 f2 a []); auto.
    now rewrite app_nil_r.
Qed.

(** Two strings agree when one begins with the other. *)
Lemma agree_cases x y :
  agree x y = true -> (exists r, y = x ++ r) \/ (exists r, x = y ++ r).
Proof.
  revert y; induction x as [|c x IH]; intros [|d y] H.
  - left. now exists [].
  - left. now exists (d :: y).
  - right. now exists (c :: x).
  - cbn in H. apply andb_true_iff in H as [Hc H].
    apply Ascii.eqb_eq in Hc. subst d.
    destruct (IH y H) as [[r ->] | [r ->]]; [left | right]; now exists r.
Qed.

Lemma cons_is_app (c : ascii) x s r :
  c :: x = s ++ r ->
  (s = [] /\ r = c :: x) \/ (exists s', s = c :: s' /\ x = s' ++ r).
Proof.
  destruct s as [|d s]; cbn; intros H.
  - left. auto.
  - right. inversion H. eauto.
Qed.

Lemma nil_is_app s r : [] = s ++ r -> s = [] /\ r = [].
Proof. intros H. symmetry in H. now apply app_eq_nil in H. Qed.

Lemma ends_with_stem s suffix :
  endsWith s suffix = true -> exists stem, s = stem ++ suffix.
Proof.
  unfold endsWith. rewrite starts_with_iff. intros [r H]. exists (rev r).
  rewrite <- (rev_involutive s), H, rev_app_distr.
  now rewrite rev_involutive.
Qed.

(** Two texts that end together agree from their ends. *)
Lemma meets_at_end a f A s :
  a ++ f = A ++ s -> agree (rev f) (rev s) = true.
Proof.
  intros H. apply (f_equal (@rev ascii)) in H.
  rewrite !rev_app_distr in H. now apply agree_common in H.
Qed.

(** A cut that is not clear is one at which both sides agree with the
    token. *)
Lemma clear_cut_fails (find sa pb : str) :
  clear_cut find sa pb = false ->
  exists d, 0 < d < length find /\
    agree (rev (firstn d find)) (rev sa) = true /\
    agree (skipn d find) pb = true.
Proof.
  unfold clear_cut. intros H.
  assert (Hex : exists d, In d (seq 1 (length find - 1)) /\
            agree (rev (firstn d find)) (rev sa) && agree (skipn d find) pb
            = true).
  { induction (seq 1 (length find - 1)) as [|d ds IH]; [discriminate|].
    cbn [forallb] in H. apply andb_false_iff in H as [H | H].
    - exists d. split; [now left | now apply negb_false_iff in H].
    - destruct (IH H) as (d' & Hin & Hd'). exists d'. split; [now right | exact Hd']. }
  destruct Hex as (d & Hin & Hd). apply in_seq in Hin.
  apply andb_true_iff in Hd. exists d. split; [lia | exact Hd].
Qed.

End Cuts.

(* ================================================================= *)
(** * Part III: the locale passes *)
(* ================================================================= *)

Section LocalePasses.

Variables short display : str.

(** No occurrence of the two-word phrase touches an occurrence of the
    one-word identifier, so pass a copies the identifier. *)
Lemma pass_a_Kilocode u v :
  locale_pass_a short (u ++ lit "Kilocode" ++ v)
  = locale_pass_a short u ++ lit "Kilocode" ++ locale_pass_a short v.
Proof. apply replaceAll_inert; [discriminate | reflexivity]. Qed.

(** Pass b takes the first four code units of every [Kilocode]. *)
Lemma pass_b_Kilocode u v :
  locale_pass_b short (u ++ lit "Kilocode" ++ v)
  = locale_pass_b short u ++ short ++ lit "code" ++ locale_pass_b short v.
Proof.
  unfold locale_pass_b.
  change (lit "Kilocode" ++ v) with (lit "Kilo" ++ lit "code" ++ v).
  rewrite replaceAll_token by (discriminate || reflexivity).
  do 2 f_equal.
  apply (@replaceAll_inert (lit "Kilo") short (lit "code") [] v);
    [discriminate | reflexivity].
Qed.

Lemma occurs_Kilocode_Kilo s : occurs (lit "Kilocode") s -> occurs (lit "Kilo") s.
Proof.
  intros (u & v & ->). exists u, (lit "code" ++ v). reflexivity.
Qed.

Lemma occurs_KiloCode_Kilo s :
  occurs (lit "Kilo Code") s -> occurs (lit "Kilo") s.
Proof.
  intros (u & v & ->). exists u, (lit " Code" ++ v). reflexivity.
Qed.

(** With a fresh short name, nothing is left of the legacy word after
    pass b. *)
Lemma pass_b_removes_Kilo s :
  fresh_for "Kilo" short = true -> ~ occurs (lit "Kilo") (locale_pass_b short s).
Proof. intros Hf. now apply replaceAll_removes. Qed.

Lemma pass_c_idle s :
  ~ occurs (lit "Kilo") s -> locale_pass_c display s = s.
Proof.
  intros H. apply replaceAll_absent, includes_false.
  intros Ho. now apply H, occurs_Kilocode_Kilo.
Qed.

Lemma rewrite_locale_text_fresh s :
  fresh_for "Kilo" short = true ->
  rewrite_locale_text short display s
  = locale_pass_b short (locale_pass_a short s).
Proof.
  intros Hf. unfold rewrite_locale_text.
  now apply pass_c_idle, pass_b_removes_Kilo.
Qed.

Lemma rewrite_locale_text_clean s :
  ~ occurs (lit "Kilo") s -> rewrite_locale_text short display s = s.
Proof.
  intros H. unfold rewrite_locale_text, locale_pass_a, locale_pass_b.
  rewrite (@replaceAll_absent s (lit "Kilo Code")).
  - rewrite (@replaceAll_absent s (lit "Kilo")).
    + now apply pass_c_idle.
    + now apply includes_false.
  - apply includes_false. intros Ho. now apply H, occurs_KiloCode_Kilo.
Qed.

End LocalePasses.

(** ** Short names that take part in a legacy word *)

(** Takes an equation of a literal with [s ++ r] apart: [s] is one of the
    prefixes of the literal. *)
Ltac prefixes H :=
  first
    [ apply nil_is_app in H as [-> ->]
    | apply cons_is_app in H as [[-> ->] | (? & -> & H)]; [ | prefixes H ] ].

(** Turns [rev s = x] into [s = rev x]. *)
Ltac unreverse H :=
  apply (f_equal (@rev ascii)) in H; rewrite rev_involutive in H; cbn in H.

Lemma pass_a_skips (short text : str) :
  includes text "Kilo Code" = false -> locale_pass_a short text = text.
Proof. apply replaceAll_absent. Qed.

(** Pass b on a text with one [Kilo] between two texts without it. *)
Lemma pass_b_once (short u v : str) :
  includes u "Kilo" = false -> includes v "Kilo" = false ->
  locale_pass_b short (u ++ lit "Kilo" ++ v) = u ++ short ++ v.
Proof.
  intros Hu Hv. unfold locale_pass_b.
  rewrite replaceAll_token by (discriminate || reflexivity).
  now rewrite !replaceAll_absent.
Qed.

(** A text in which the two passes leave the given token. *)
Lemma passes_leave (tok short text : str) :
  includes text "Kilo Code" = false ->
  includes (locale_pass_b short text) tok = true ->
  exists text, occurs tok (locale_pass_b short (locale_pass_a short text)).
Proof.
  intros H1 H2. exists text. rewrite pass_a_skips by exact H1.
  now apply includes_iff.
Qed.

(** The short name begins with what completes the token behind [f1]. *)
Lemma passes_leave_behind (tok short f1 f2 r : str) :
  tok = f1 ++ f2 -> includes f1 "Kilo" = false ->
  includes (f1 ++ lit "Kilo") "Kilo Code" = false ->
  short = f2 ++ r ->
  exists text, occurs tok (locale_pass_b short (locale_pass_a short text)).
Proof.
  intros Hk Hf Hc Hs. exists (f1 ++ lit "Kilo").
  rewrite pass_a_skips by exact Hc.
  rewrite <- (app_nil_r (lit "Kilo")), pass_b_once by (exact Hf || reflexivity).
  exists [], r. rewrite app_nil_r, Hk, Hs, <- !app_assoc. reflexivity.
Qed.

(** The short name ends with what completes the token before [f2]. *)
Lemma passes_leave_before (tok short f1 f2 stem : str) :
  tok = f1 ++ f2 -> includes f2 "Kilo" = false ->
  includes (lit "Kilo" ++ f2) "Kilo Code" = false ->
  short = stem ++ f1 ->
  exists text, occurs tok (locale_pass_b short (locale_pass_a short text)).
Proof.
  intros Hk Hf Hc Hs. exists (lit "Kilo" ++ f2).
  rewrite pass_a_skips by exact Hc.
  change (lit "Kilo" ++ f2) with ([] ++ lit "Kilo" ++ f2).
  rewrite pass_b_once by (exact Hf || reflexivity).
  exists stem, []. rewrite app_nil_r, Hk, Hs, <- !app_assoc. reflexivity.
Qed.

(** The texts that show a short name taking part in [Kilo] or
    [Kilocode]: a proper prefix of the token, [Kilo], and the rest of the
    token or a suffix of it. *)
Ltac try_text text :=
  apply (@passes_leave _ _ text); vm_compute; reflexivity.

Ltac try_texts :=
  first
    [ try_text (lit "KKiloilocode")
    | try_text (lit "KKilolocode")
    | try_text (lit "KKiloocode")
    | try_text (lit "KKilocode")
    | try_text (lit "KKiloode")
    | try_text (lit "KKilode")
    | try_text (lit "KKiloe")
    | try_text (lit "KKilo")
    | try_text (lit "KiKilolocode")
    | try_text (lit "KiKiloocode")
    | try_text (lit "KiKilocode")
    | try_text (lit "KiKiloode")
    | try_text (lit "KiKilode")
    | try_text (lit "KiKiloe")
    | try_text (lit "KiKilo")
    | try_text (lit "KilKiloocode")
    | try_text (lit "KilKilocode")
    | try_text (lit "KilKiloode")
    | try_text (lit "KilKilode")
    | try_text (lit "KilKiloe")
    | try_text (lit "KilKilo")
    | try_text (lit "KKiloilo")
    | try_text (lit "KKilolo")
    | try_text (lit "KKiloo")
    | try_text (lit "KiKilolo")
    | try_text (lit "KiKiloo")
    | try_text (lit "KilKiloo") ].


(** A short name that is inert for [Kilo] leaves no [Kilo] behind pass b,
    and every other short name leaves one in some text. *)
Lemma pass_b_removes_Kilo_inert (short s : str) :
  inert "Kilo" short = true -> ~ occurs (lit "Kilo") (locale_pass_b short s).
Proof. apply replaceAll_removes_inert. Qed.

Lemma pass_b_leaves_Kilo (short : str) :
  inert "Kilo" short = false ->
  exists text,
    occurs (lit "Kilo") (locale_pass_b short (locale_pass_a short text)).
Proof.
  unfold inert. rewrite !andb_false_iff, negb_false_iff.
  intros [[H | H] | H].
  - exists (lit "Kilo"). rewrite pass_a_skips by reflexivity.
    change (lit "Kilo") with ([] ++ lit "Kilo" ++ []) at 2.
    rewrite pass_b_once by reflexivity. rewrite app_nil_r.
    now apply includes_iff.
  - apply clear_cut_fails in H as (d & Hd & _ & H). cbn in Hd.
    apply agree_cases in H as [[r Hr] | [r Hr]];
      destruct d as [|[|[|[|d]]]]; try lia.
    1-3: match type of Hr with
         | _ = skipn ?d _ ++ _ =>
           exact (@passes_leave_behind (lit "Kilo") short
                    (firstn d (lit "Kilo")) (skipn d (lit "Kilo")) r
                    eq_refl eq_refl eq_refl Hr)
         end.
    all: cbn in Hr; prefixes Hr; try_texts.
  - apply clear_cut_fails in H as (d & Hd & H & _). cbn in Hd.
    apply agree_cases in H as [[r Hr] | [r Hr]];
      destruct d as [|[|[|[|d]]]]; try lia.
    1-3: apply (f_equal (@rev ascii)) in Hr;
         rewrite rev_app_distr, !rev_involutive in Hr;
         match type of Hr with
         | _ = _ ++ firstn ?d _ =>
           exact (@passes_leave_before (lit "Kilo") short
                    (firstn d (lit "Kilo")) (skipn d (lit "Kilo")) (rev r)
                    eq_refl eq_refl eq_refl Hr)
         end.
    all: remember (rev short) as rs eqn:Hrs in Hr; cbn in Hr; prefixes Hr;
      symmetry in Hrs; unreverse Hrs; subst short; try_texts.
Qed.

Lemma completes_Kilocode_false (short : str) :
  completes_Kilocode short = false ->
  forall d, In d [1; 2; 3] ->
    agree (skipn d (lit "Kilocode")) short = false /\
    endsWith short (firstn d (lit "Kilocode")) = false.
Proof.
  intros H d Hd. apply orb_false_iff.
  destruct (agree (skipn d (lit "Kilocode")) short
            || endsWith short (firstn d (lit "Kilocode"))) eqn:E;
    [|reflexivity].
  unfold completes_Kilocode in H. rewrite <- H. symmetry.
  apply existsb_exists. exists d. auto.
Qed.

(** A short name without [Kilo] that completes no [Kilocode] leaves no
    [Kilocode] behind pass b. *)
Lemma pass_b_makes_no_Kilocode (short s : str) :
  includes short "Kilo" = false -> completes_Kilocode short = false ->
  ~ occurs (lit "Kilocode") (locale_pass_b short s).
Proof.
  intros Hk Hc (a & b & E).
  change (lit "Kilocode" ++ b) with (lit "Kilo" ++ lit "code" ++ b) in E.
  destruct (@replaceAll_occurrence_is_cut (lit "Kilo") short s a _
              ltac:(discriminate) Hk E)
    as (f1 & f2 & Hf & H1 & H2 & Hcut).
  assert (Hd : exists d, In d [1; 2; 3] /\
            f1 = firstn d (lit "Kilocode") /\
            f2 ++ lit "code" = skipn d (lit "Kilocode")).
  { cbn in Hf. prefixes Hf; try congruence;
      [exists 1 | exists 2 | exists 3]; cbn; auto. }
  destruct Hd as (d & Hin & -> & Hf2).
  destruct (@completes_Kilocode_false short Hc d Hin) as [Hbegin Hend].
  destruct Hcut as [[B HB] | [A HA]].
  - rewrite app_assoc, Hf2 in HB. apply agree_common in HB. congruence.
  - apply meets_at_end, agree_cases in HA as [[r Hr] | [r Hr]].
    + assert (endsWith short (firstn d (lit "Kilocode")) = true); [|congruence].
      apply starts_with_iff. now exists r.
    + clear Hend Hbegin Hf Hf2 H1 E.
      remember (rev short) as rs eqn:Hrs in Hr.
      destruct Hin as [<- | [<- | [<- | []]]];
        cbn in Hr; prefixes Hr;
        symmetry in Hrs; unreverse Hrs; subst short;
        vm_compute in Hc; discriminate.
Qed.

(** Every other short name takes part in a [Kilocode] in some text. *)
Lemma pass_b_makes_Kilocode (short : str) :
  completes_Kilocode short = true ->
  exists text,
    occurs (lit "Kilocode") (locale_pass_b short (locale_pass_a short text)).
Proof.
  unfold completes_Kilocode. rewrite existsb_exists.
  intros (d & Hd & H). apply orb_true_iff in H as [H | H].
  - apply agree_cases in H as [[r Hr] | [r Hr]];
      destruct Hd as [<- | [<- | [<- | []]]].
    1-3: match type of Hr with
         | _ = skipn ?d _ ++ _ =>
           exact (@passes_leave_behind (lit "Kilocode") short
                    (firstn d (lit "Kilocode")) (skipn d (lit "Kilocode")) r
                    eq_refl eq_refl eq_refl Hr)
         end.
    all: cbn in Hr; prefixes Hr; try_texts.
  - apply ends_with_stem in H as [stem Hs].
    destruct Hd as [<- | [<- | [<- | []]]];
      match type of Hs with
      | _ = _ ++ firstn ?d _ =>
        exact (@passes_leave_before (lit "Kilocode") short
                 (firstn d (lit "Kilocode")) (skipn d (lit "Kilocode")) stem
                 eq_refl eq_refl eq_refl Hs)
      end.
Qed.

Lemma rewrite_locale_text_settled (short display s : str) :
  includes short "Kilo" = false -> completes_Kilocode short = false ->
  rewrite_locale_text short display s
  = locale_pass_b short (locale_pass_a short s).
Proof.
  intros Hk Hc. unfold rewrite_locale_text, locale_pass_c.
  apply replaceAll_absent, includes_false.
  now apply pass_b_makes_no_Kilocode.
Qed.

Lemma rewrite_locale_text_inert (short display s : str) :
  inert "Kilo" short = true ->
  rewrite_locale_text short display s
  = locale_pass_b short (locale_pass_a short s).
Proof.
  intros Hf. unfold rewrite_locale_text.
  now apply pass_c_idle, pass_b_removes_Kilo_inert.
Qed.

(** C1, the code at the three example texts: with [shortName = "Jack"]
    and [displayName = "Jack Assistant"] the first two texts come out as
    the specification states; in the third, pass b has already turned
    [Kilocode] into [Jackcode] when pass c looks for it, and the result
    is not ["Jack Assistant settings"]. *)
Theorem rewrite_locale_text_examples :
  rewrite_locale_text "Jack" "Jack Assistant" "Kilo Code has a question"
    = lit "Jack has a question" /\
  rewrite_locale_text "Jack" "Jack Assistant" "Kilo said hi"
    = lit "Jack said hi" /\
  rewrite_locale_text "Jack" "Jack Assistant" "Kilocode settings"
    = lit "Jackcode settings" /\
  rewrite_locale_text "Jack" "Jack Assistant" "Kilocode settings"
    <> lit "Jack Assistant settings".
Proof.
  repeat split; try (vm_compute; reflexivity).
  vm_compute. discriminate.
Qed.

(** C10 as stated fails: the short name ["lo"] does not contain [Kilo],
    yet in the text ["KiKilocode"] pass b produces [Kilocode] anew, pass c
    replaces it, and the output does not hold ["locode"]. *)
Lemma pass_c_matches_after_short_lo :
  includes "lo" "Kilo" = false /\
  locale_pass_b "lo" (locale_pass_a "lo" "KiKilocode") = lit "Kilocode" /\
  locale_pass_c "Jack Assistant"
    (locale_pass_b "lo" (locale_pass_a "lo" "KiKilocode"))
    <> locale_pass_b "lo" (locale_pass_a "lo" "KiKilocode") /\
  rewrite_locale_text "lo" "Jack Assistant" "KiKilocode"
    = lit "Jack Assistant" /\
  includes (rewrite_locale_text "lo" "Jack Assistant" "KiKilocode")
    (lit "lo" ++ lit "code") = false.
Proof.
  repeat split; try (vm_compute; reflexivity).
  vm_compute. discriminate.
Qed.

(** C10, amended: for every short name, pass a copies every [Kilocode]
    and pass b turns it into the short name followed by [code].  For a
    short name without [Kilo], pass c finds nothing to replace in any
    text exactly when the short name completes no [Kilocode]: it agrees
    with none of [ilocode], [locode] and [ocode] (it is not empty, is no
    prefix of one of them and does not begin with one of them) and ends
    with none of [K], [Ki] and [Kil].  For such a short name the three
    passes send [u ++ Kilocode ++ v] to the rewriting of [u], the short
    name, [code] and the rewriting of [v]. *)
Theorem Kilocode_becomes_short_code short display :
  (forall u v,
     locale_pass_a short (u ++ lit "Kilocode" ++ v)
     = locale_pass_a short u ++ lit "Kilocode" ++ locale_pass_a short v) /\
  (forall u v,
     locale_pass_b short (u ++ lit "Kilocode" ++ v)
     = locale_pass_b short u ++ short ++ lit "code"
       ++ locale_pass_b short v) /\
  (includes short "Kilo" = false ->
   (completes_Kilocode short = false <->
    forall s,
      ~ occurs (lit "Kilocode")
          (locale_pass_b short (locale_pass_a short s))) /\
   (completes_Kilocode short = false ->
    (forall u v,
       rewrite_locale_text short display (u ++ lit "Kilocode" ++ v)
       = rewrite_locale_text short display u ++ short ++ lit "code"
         ++ rewrite_locale_text short display v) /\
    (forall s,
       locale_pass_c display (locale_pass_b short (locale_pass_a short s))
       = locale_pass_b short (locale_pass_a short s)))).
Proof.
  split; [apply pass_a_Kilocode|].
  split; [apply pass_b_Kilocode|].
  intros Hk. split.
  - split.
    + intros Hc s. now apply pass_b_makes_no_Kilocode.
    + intros H. destruct (completes_Kilocode short) eqn:Hc; [|reflexivity].
      destruct (@pass_b_makes_Kilocode short Hc) as [text Ht].
      now apply H in Ht.
  - intros Hc. split.
    + intros u v. rewrite !rewrite_locale_text_settled by assumption.
      now rewrite pass_a_Kilocode, pass_b_Kilocode.
    + intros s. apply (@rewrite_locale_text_settled short display s Hk Hc).
Qed.

Lemma Kilocode_becomes_short_code_witness :
  (forall s,
     ~ occurs (lit "Kilocode")
         (locale_pass_b "Gemini" (locale_pass_a "Gemini" s))) /\
  rewrite_locale_text "Gemini" "Gemini Assistant"
    (lit "Open " ++ lit "Kilocode" ++ lit " settings")
  = rewrite_locale_text "Gemini" "Gemini Assistant" "Open "
    ++ lit "Gemini" ++ lit "code"
    ++ rewrite_locale_text "Gemini" "Gemini Assistant" " settings".
Proof.
  destruct (Kilocode_becomes_short_code "Gemini" "Gemini Assistant")
    as (_ & _ & H).
  destruct (H eq_refl) as [[Hnone _] Hsettled].
  split.
  - exact (Hnone eq_refl).
  - destruct (Hsettled eq_refl) as [Hrewrite _]. apply Hrewrite.
Defined.

(* ================================================================= *)
(** * Part IV: the textual passes over the manifest *)
(* ================================================================= *)

Section ManifestText.

Variable branding : BrandingConfig.

(** A text without the legacy tokens goes through the passes as it
    is. *)
Lemma rewrite_manifest_text_idle s :
  ~ occurs (lit "kilo-code") s -> ~ occurs (lit "kilocode") s ->
  rewrite_manifest_text branding s = s.
Proof.
  intros H1 H2. unfold rewrite_manifest_text.
  rewrite (@replaceAll_absent s (lit "kilo-code")) by now apply includes_false.
  apply replaceAll_absent. now apply includes_false.
Qed.

(** When the configured identifiers are fresh for the legacy tokens, the
    text that leaves the two passes holds neither token. *)
Lemma rewrite_manifest_text_clean content :
  fresh_for "kilo-code" (name branding) = true ->
  fresh_for "kilo-code" (publisher branding) = true ->
  fresh_for "kilocode" (publisher branding) = true ->
  ~ occurs (lit "kilo-code") (rewrite_manifest_text branding content) /\
  ~ occurs (lit "kilocode") (rewrite_manifest_text branding content).
Proof.
  intros Hn Hp1 Hp2. unfold rewrite_manifest_text. split.
  - apply replaceAll_keeps_absent; [discriminate | assumption |].
    now apply replaceAll_removes.
  - now apply replaceAll_removes.
Qed.

End ManifestText.

(** C2: the manifest text goes through the pass for ["kilo-code"] and,
    on its result, the pass for ["kilocode"]; each pass replaces its
    token wherever it is embedded, by the configured name and by the
    configured publisher; and with [name = "jack-code"] and
    [publisher = "jackcode"] a text that holds ["kilo-code.someView"]
    and ["onView:kilocode.Provider"] comes out holding
    ["jack-code.someView"] and ["onView:jackcode.Provider"] and neither
    legacy token. *)
Theorem manifest_text_rewriting branding :
  (forall content,
     rewrite_manifest_text branding content
     = replaceAll (replaceAll content "kilo-code" (name branding))
         "kilocode" (publisher branding)) /\
  (forall u v,
     replaceAll (u ++ lit "kilo-code" ++ v) "kilo-code" (name branding)
     = replaceAll u "kilo-code" (name branding) ++ name branding
       ++ replaceAll v "kilo-code" (name branding)) /\
  (forall u v,
     replaceAll (u ++ lit "kilocode" ++ v) "kilocode" (publisher branding)
     = replaceAll u "kilocode" (publisher branding) ++ publisher branding
       ++ replaceAll v "kilocode" (publisher branding)) /\
  (name branding = lit "jack-code" ->
   publisher branding = lit "jackcode" ->
   forall content,
     occurs (lit "kilo-code.someView") content ->
     occurs (lit "onView:kilocode.Provider") content ->
     occurs (lit "jack-code.someView")
       (rewrite_manifest_text branding content) /\
     occurs (lit "onView:jackcode.Provider")
       (rewrite_manifest_text branding content) /\
     ~ occurs (lit "kilo-code") (rewrite_manifest_text branding content) /\
     ~ occurs (lit "kilocode") (rewrite_manifest_text branding content)).
Proof.
  split; [reflexivity|].
  split; [intros; apply replaceAll_token; [discriminate | reflexivity]|].
  split; [intros; apply replaceAll_token; [discriminate | reflexivity]|].
  intros Hname Hpub content Hview Hprov.
  split; [|split].
  - destruct Hview as (u & v & ->).
    unfold rewrite_manifest_text. rewrite Hname, Hpub.
    change (lit "kilo-code.someView" ++ v)
      with (lit "kilo-code" ++ lit ".someView" ++ v).
    rewrite replaceAll_token by (discriminate || reflexivity).
    rewrite (@replaceAll_inert_head (lit "kilo-code") _ (lit ".someView"))
      by (discriminate || reflexivity).
    change (lit "jack-code" ++ lit ".someView" ++ ?r)
      with (lit "jack-code.someView" ++ r).
    rewrite replaceAll_inert by (discriminate || reflexivity).
    eexists _, _. reflexivity.
  - destruct Hprov as (u & v & ->).
    unfold rewrite_manifest_text. rewrite Hname, Hpub.
    rewrite replaceAll_inert by (discriminate || reflexivity).
    change (lit "onView:kilocode.Provider" ++ ?r)
      with (lit "onView:" ++ lit "kilocode" ++ lit ".Provider" ++ r).
    rewrite app_assoc.
    rewrite replaceAll_token by (discriminate || reflexivity).
    rewrite (@replaceAll_inert_head (lit "kilocode") _ (lit ".Provider"))
      by (discriminate || reflexivity).
    rewrite (@replaceAll_inert_tail (lit "kilocode") _ (lit "onView:"))
      by (discriminate || reflexivity).
    eexists _, _. rewrite <- app_assoc. reflexivity.
  - apply rewrite_manifest_text_clean; rewrite ?Hname, ?Hpub; reflexivity.
Qed.

Lemma manifest_text_rewriting_witness :
  occurs (lit "jack-code.someView")
    (rewrite_manifest_text jack
       "[kilo-code.someView, onView:kilocode.Provider]") /\
  occurs (lit "onView:jackcode.Provider")
    (rewrite_manifest_text jack
       "[kilo-code.someView, onView:kilocode.Provider]") /\
  ~ occurs (lit "kilo-code")
    (rewrite_manifest_text jack
       "[kilo-code.someView, onView:kilocode.Provider]") /\
  ~ occurs (lit "kilocode")
    (rewrite_manifest_text jack
       "[kilo-code.someView, onView:kilocode.Provider]").
Proof.
  destruct (manifest_text_rewriting jack) as (_ & _ & _ & H).
  apply (H eq_refl eq_refl).
  - exists (lit "["), (lit ", onView:kilocode.Provider]"). reflexivity.
  - exists (lit "[kilo-code.someView, "), (lit "]"). reflexivity.
Defined.

(* ================================================================= *)
(** * Part V: assignments to the parsed documents *)
(* ================================================================= *)

Section Properties.

Implicit Types (ps : list (str * json)) (k : str) (v : json) (doc : json).

Lemma prop_get_set ps k v k' :
  prop_get (prop_set ps k v) k'
  = if str_eqb k k' then Some v else prop_get ps k'.
Proof.
  induction ps as [|[k0 v0] ps IH]; simpl; [reflexivity|].
  destruct (str_eqb k0 k) eqn:E0; simpl.
  - apply str_eqb_eq in E0. subst k0.
    destruct (str_eqb k k'); reflexivity.
  - rewrite IH. destruct (str_eqb k0 k') eqn:E1; [|reflexivity].
    apply str_eqb_eq in E1. subst k'.
    destruct (str_eqb k k0) eqn:E2; [|reflexivity].
    apply str_eqb_eq in E2. subst k. rewrite str_eqb_refl in E0. discriminate.
Qed.

Lemma prop_set_same ps k v : prop_get ps k = Some v -> prop_set ps k v = ps.
Proof.
  induction ps as [|[k0 v0] ps IH]; simpl; [discriminate|].
  destruct (str_eqb k0 k); intros H.
  - congruence.
  - f_equal. auto.
Qed.

Lemma get_set_field doc k v doc' k' :
  set_field doc k v = Ok doc' ->
  get_field doc' k' = if str_eqb k k' then Some v else get_field doc k'.
Proof.
  destruct doc; simpl; try discriminate; intros H; inversion H; subst;
    simpl; apply prop_get_set.
Qed.

Lemma get_set_field_eq doc k v doc' :
  set_field doc k v = Ok doc' -> get_field doc' k = Some v.
Proof.
  intros H. rewrite (@get_set_field _ _ _ _ k H). now rewrite str_eqb_refl.
Qed.

Lemma get_set_field_other doc k v doc' :
  set_field doc k v = Ok doc' ->
  forall k', str_eqb k k' = false -> get_field doc' k' = get_field doc k'.
Proof.
  intros H k' E. rewrite (@get_set_field _ _ _ _ k' H). now rewrite E.
Qed.

Lemma set_field_same doc k v :
  get_field doc k = Some v -> set_field doc k v = Ok doc.
Proof.
  destruct doc; simpl; try discriminate; intros H;
    now rewrite prop_set_same.
Qed.

Lemma and_then_Ok {A B} (r : result A) (k : A -> result B) b :
  and_then r k = Ok b -> exists a, r = Ok a /\ k a = Ok b.
Proof. destruct r; simpl; [eauto | discriminate]. Qed.

Lemma set_field_total doc k v :
  takes_properties doc = true ->
  exists doc', set_field doc k v = Ok doc' /\ takes_properties doc' = true.
Proof. destruct doc; try discriminate; simpl; eauto. Qed.

Lemma set_field_takes doc k v doc' :
  set_field doc k v = Ok doc' -> takes_properties doc' = true.
Proof. destruct doc; simpl; try discriminate; intros H; now inversion H. Qed.

End Properties.

Ltac chain H :=
  repeat match type of H with
  | and_then _ _ = Ok _ =>
    let a := fresh "doc" in
    let Ha := fresh "Hset" in
    apply and_then_Ok in H as (a & Ha & H)
  end.

Section Overwrite.

Variable branding : BrandingConfig.

Lemma overwrite_manifest_fields doc doc' :
  overwrite_manifest branding doc = Ok doc' ->
  get_field doc' "name" = Some (JString (name branding)) /\
  get_field doc' "publisher" = Some (JString (publisher branding)) /\
  get_field doc' "description" = Some (JString (description branding)) /\
  get_field doc' "repository"
  = (if truthy (repository branding)
     then Some (JObject [(lit "type", JString "git");
                         (lit "url", JString (repository branding))])
     else get_field doc "repository") /\
  get_field doc' "homepage"
  = (if truthy (homepage branding)
     then Some (JString (homepage branding))
     else get_field doc "homepage").
Proof.
  unfold overwrite_manifest. intros H. chain H.
  assert (Hrepo :
    forall k', str_eqb "repository" k' = false ->
               get_field doc3 k' = get_field doc2 k').
  { intros k' E. destruct (truthy (repository branding)).
    - now apply (@get_set_field_other _ _ _ _ Hset2).
    - now inversion Hset2. }
  assert (Hhome :
    forall k', str_eqb "homepage" k' = false ->
               get_field doc' k' = get_field doc3 k').
  { intros k' E. destruct (truthy (homepage branding)).
    - now apply (@get_set_field_other _ _ _ _ H).
    - now inversion H. }
  repeat split.
  - rewrite Hhome, Hrepo by reflexivity.
    rewrite (@get_set_field_other _ _ _ _ Hset1) by reflexivity.
    rewrite (@get_set_field_other _ _ _ _ Hset0) by reflexivity.
    now apply get_set_field_eq with (1 := Hset).
  - rewrite Hhome, Hrepo by reflexivity.
    rewrite (@get_set_field_other _ _ _ _ Hset1) by reflexivity.
    now apply get_set_field_eq with (1 := Hset0).
  - rewrite Hhome, Hrepo by reflexivity.
    now apply get_set_field_eq with (1 := Hset1).
  - rewrite Hhome by reflexivity.
    destruct (truthy (repository branding)).
    + now apply get_set_field_eq with (1 := Hset2).
    + inversion Hset2; subst.
      rewrite (@get_set_field_other _ _ _ _ Hset1) by reflexivity.
      rewrite (@get_set_field_other _ _ _ _ Hset0) by reflexivity.
      now rewrite (@get_set_field_other _ _ _ _ Hset) by reflexivity.
  - destruct (truthy (homepage branding)).
    + now apply get_set_field_eq with (1 := H).
    + inversion H; subst. rewrite Hrepo by reflexivity.
      rewrite (@get_set_field_other _ _ _ _ Hset1) by reflexivity.
      rewrite (@get_set_field_other _ _ _ _ Hset0) by reflexivity.
      now rewrite (@get_set_field_other _ _ _ _ Hset) by reflexivity.
Qed.

Lemma overwrite_manifest_total doc :
  takes_properties doc = true ->
  exists doc', overwrite_manifest branding doc = Ok doc'.
Proof.
  intros H. unfold overwrite_manifest.
  destruct (@set_field_total _ "name" (JString (name branding)) H)
    as (d1 & -> & H1). cbn [and_then].
  destruct (@set_field_total _ "publisher" (JString (publisher branding)) H1)
    as (d2 & -> & H2). cbn [and_then].
  destruct (@set_field_total _ "description" (JString (description branding)) H2)
    as (d3 & -> & H3). cbn [and_then].
  assert (exists d4,
    (if truthy (repository branding)
     then set_field d3 "repository"
            (JObject [(lit "type", JString "git");
                      (lit "url", JString (repository branding))])
     else Ok d3) = Ok d4 /\ takes_properties d4 = true) as (d4 & -> & H4).
  { destruct (truthy (repository branding)); [|eauto].
    now apply set_field_total. }
  cbn [and_then]. destruct (truthy (homepage branding)); [|eauto].
  destruct (@set_field_total _ "homepage" (JString (homepage branding)) H4)
    as (d5 & -> & _). eauto.
Qed.

(** Assigning the configured values to a manifest that has them changes
    nothing. *)
Lemma overwrite_manifest_again doc doc' :
  overwrite_manifest branding doc = Ok doc' ->
  overwrite_manifest branding doc' = Ok doc'.
Proof.
  intros H. destruct (@overwrite_manifest_fields _ _ H) as (Hn & Hp & Hd & Hr & Hh).
  unfold overwrite_manifest.
  rewrite (@set_field_same _ _ _ Hn). cbn [and_then].
  rewrite (@set_field_same _ _ _ Hp). cbn [and_then].
  rewrite (@set_field_same _ _ _ Hd). cbn [and_then].
  destruct (truthy (repository branding)).
  - rewrite (@set_field_same _ _ _ Hr). cbn [and_then].
    destruct (truthy (homepage branding)); [|reflexivity].
    now rewrite (@set_field_same _ _ _ Hh).
  - cbn [and_then]. destruct (truthy (homepage branding)); [|reflexivity].
    now rewrite (@set_field_same _ _ _ Hh).
Qed.

Lemma overwrite_nls_fields doc doc' :
  overwrite_nls branding doc = Ok doc' ->
  get_field doc' "extension.displayName"
    = Some (JString (displayName branding)) /\
  get_field doc' "extension.description"
    = Some (JString (description branding)) /\
  get_field doc' "views.activitybar.title"
    = Some (JString (displayName branding)) /\
  get_field doc' "views.sidebar.name"
    = Some (JString (displayName branding)) /\
  get_field doc' "configuration.title"
    = Some (JString (displayName branding)) /\
  get_field doc' "views.contextMenu.label"
    = Some (JString (displayName branding)) /\
  get_field doc' "views.terminalMenu.label"
    = Some (JString (displayName branding)).
Proof.
  unfold overwrite_nls. intros H. chain H.
  repeat split;
    repeat (first
      [ now apply get_set_field_eq with (1 := H)
      | now apply get_set_field_eq with (1 := Hset4)
      | now apply get_set_field_eq with (1 := Hset3)
      | now apply get_set_field_eq with (1 := Hset2)
      | now apply get_set_field_eq with (1 := Hset1)
      | now apply get_set_field_eq with (1 := Hset0)
      | now apply get_set_field_eq with (1 := Hset)
      | rewrite (@get_set_field_other _ _ _ _ H) by reflexivity
      | rewrite (@get_set_field_other _ _ _ _ Hset4) by reflexivity
      | rewrite (@get_set_field_other _ _ _ _ Hset3) by reflexivity
      | rewrite (@get_set_field_other _ _ _ _ Hset2) by reflexivity
      | rewrite (@get_set_field_other _ _ _ _ Hset1) by reflexivity
      | rewrite (@get_set_field_other _ _ _ _ Hset0) by reflexivity ]).
Qed.

Lemma not_known_key k k' :
  In k nls_known_keys -> ~ In k' nls_known_keys -> str_eqb k k' = false.
Proof.
  intros H H'. apply str_eqb_neq. intros ->. contradiction.
Qed.

Lemma overwrite_nls_frame doc doc' k :
  overwrite_nls branding doc = Ok doc' ->
  ~ In k nls_known_keys -> get_field doc' k = get_field doc k.
Proof.
  unfold overwrite_nls. intros H Hk. chain H.
  rewrite (@get_set_field_other _ _ _ _ H)
    by (apply not_known_key; [simpl; auto 10 | exact Hk]).
  rewrite (@get_set_field_other _ _ _ _ Hset4)
    by (apply not_known_key; [simpl; auto 10 | exact Hk]).
  rewrite (@get_set_field_other _ _ _ _ Hset3)
    by (apply not_known_key; [simpl; auto 10 | exact Hk]).
  rewrite (@get_set_field_other _ _ _ _ Hset2)
    by (apply not_known_key; [simpl; auto 10 | exact Hk]).
  rewrite (@get_set_field_other _ _ _ _ Hset1)
    by (apply not_known_key; [simpl; auto 10 | exact Hk]).
  rewrite (@get_set_field_other _ _ _ _ Hset0)
    by (apply not_known_key; [simpl; auto 10 | exact Hk]).
  now rewrite (@get_set_field_other _ _ _ _ Hset)
    by (apply not_known_key; [simpl; auto 10 | exact Hk]).
Qed.

Lemma overwrite_nls_total doc :
  takes_properties doc = true ->
  exists doc', overwrite_nls branding doc = Ok doc'.
Proof.
  intros H. unfold overwrite_nls.
  repeat match goal with
  | Ht : takes_properties ?d = true
    |- context [and_then (set_field ?d ?k ?v) _] =>
    let d' := fresh "d" in
    let Ht' := fresh "Ht" in
    destruct (@set_field_total _ k v Ht) as (d' & -> & Ht'); clear Ht; cbn [and_then]
  end.
  match goal with
  | Ht : takes_properties ?d = true |- context [set_field ?d ?k ?v] =>
    destruct (@set_field_total _ k v Ht) as (d' & -> & _)
  end.
  eauto.
Qed.

End Overwrite.

(* ================================================================= *)
(** * Part VI: the stages and the run *)
(* ================================================================= *)

Section Pipeline.

Context {node : Node}.

Implicit Types (w : world) (branding : BrandingConfig).

Lemma bind_Done {A B} (m : M A) (k : A -> M B) w a w' :
  m w = (Done a, w') -> bind m k w = k a w'.
Proof. unfold bind. now intros ->. Qed.

Lemma bind_Thrown {A B} (m : M A) (k : A -> M B) w e w' :
  m w = (Thrown e, w') -> bind m k w = (Thrown e, w').
Proof. unfold bind. now intros ->. Qed.

Lemma bind_Exited {A B} (m : M A) (k : A -> M B) w c w' :
  m w = (Exited c, w') -> bind m k w = (Exited c, w').
Proof. unfold bind. now intros ->. Qed.

(** The loop runs its body on the elements in their order and stops at
    the first one that does not end normally. *)
Lemma for_each_app {A} (xs ys : list A) (body : A -> M unit) w :
  for_each (xs ++ ys) body w
  = (for_each xs body ;; for_each ys body) w.
Proof.
  revert w; induction xs as [|x xs IH]; intros w; [reflexivity|].
  cbn [for_each app]. unfold bind.
  destruct (body x w) as [[[]|e|c] w1]; try reflexivity.
  rewrite IH. reflexivity.
Qed.

(** *** Stage 1 *)

Lemma stage_package_missing branding w :
  existsSync (disk w) (packageJsonPath branding) = false ->
  stage_package branding w
  = (Done tt, say (Error (relativePackagePath branding ++ lit " not found")) w).
Proof.
  intros H. unfold stage_package, bind, fs_existsSync. now rewrite H.
Qed.

Lemma stage_package_malformed branding w content e :
  existsSync (disk w) (packageJsonPath branding) = true ->
  readFileSync (disk w) (packageJsonPath branding) = Ok content ->
  JSON_parse (rewrite_manifest_text branding content) = Throw e ->
  stage_package branding w = (Thrown e, w).
Proof.
  intros H1 H2 H3.
  unfold stage_package, bind, fs_existsSync, fs_readFileSync, lift.
  now rewrite H1, H2, H3.
Qed.

Lemma stage_package_found branding w content doc doc' :
  existsSync (disk w) (packageJsonPath branding) = true ->
  readFileSync (disk w) (packageJsonPath branding) = Ok content ->
  JSON_parse (rewrite_manifest_text branding content) = Ok doc ->
  overwrite_manifest branding doc = Ok doc' ->
  stage_package branding w
  = (fs_writeFileSync (packageJsonPath branding)
       (JSON_stringify doc' ++ newline) ;;
     console_log (lit "Updated " ++ relativePackagePath branding)) w.
Proof.
  intros H1 H2 H3 H4.
  unfold stage_package, bind, fs_existsSync, fs_readFileSync, lift.
  now rewrite H1, H2, H3, H4.
Qed.

(** *** Stage 2 *)

Lemma stage_nls_missing branding w :
  existsSync (disk w) (nlsPath branding) = false ->
  stage_nls branding w
  = (Done tt, say (Error (relativeNlsPath branding ++ lit " not found")) w).
Proof.
  intros H. unfold stage_nls, bind, fs_existsSync. now rewrite H.
Qed.

Lemma stage_nls_malformed branding w content e :
  existsSync (disk w) (nlsPath branding) = true ->
  readFileSync (disk w) (nlsPath branding) = Ok content ->
  JSON_parse content = Throw e ->
  stage_nls branding w = (Thrown e, w).
Proof.
  intros H1 H2 H3.
  unfold stage_nls, bind, fs_existsSync, fs_readFileSync, lift.
  now rewrite H1, H2, H3.
Qed.

Lemma stage_nls_found branding w content doc doc' :
  existsSync (disk w) (nlsPath branding) = true ->
  readFileSync (disk w) (nlsPath branding) = Ok content ->
  JSON_parse content = Ok doc ->
  overwrite_nls branding doc = Ok doc' ->
  stage_nls branding w
  = (fs_writeFileSync (nlsPath branding) (JSON_stringify doc' ++ newline) ;;
     console_log (lit "Updated " ++ relativeNlsPath branding)) w.
Proof.
  intros H1 H2 H3 H4.
  unfold stage_nls, bind, fs_existsSync, fs_readFileSync, lift.
  now rewrite H1, H2, H3, H4.
Qed.

(** *** Stage 3 *)

Lemma resolve_absolute d srcPath :
  path_isAbsolute srcPath = true -> resolve_icon_source d srcPath = srcPath.
Proof. unfold resolve_icon_source. now intros ->. Qed.

Lemma resolve_beside_config d srcPath :
  path_isAbsolute srcPath = false ->
  existsSync d (path_join [dirname__; srcPath]) = true ->
  resolve_icon_source d srcPath = path_join [dirname__; srcPath].
Proof. unfold resolve_icon_source. now intros -> ->. Qed.

Lemma resolve_under_root d srcPath :
  path_isAbsolute srcPath = false ->
  existsSync d (path_join [dirname__; srcPath]) = false ->
  resolve_icon_source d srcPath = path_join [rootDir; srcPath].
Proof. unfold resolve_icon_source. now intros -> ->. Qed.

Lemma copy_icon_empty destName w : copy_icon (destName, []) w = (Done tt, w).
Proof. reflexivity. Qed.

Lemma copy_icon_missing destName srcPath w :
  truthy srcPath = true ->
  existsSync (disk w) (resolve_icon_source (disk w) srcPath) = false ->
  copy_icon (destName, srcPath) w
  = (Done tt,
     say (Warn (icon_warning (resolve_icon_source (disk w) srcPath))) w).
Proof.
  intros Ht He. unfold copy_icon. rewrite Ht. cbn [negb].
  unfold bind, fs_existsSync. cbv beta iota zeta. now rewrite He.
Qed.

Lemma copy_icon_present destName srcPath w d' :
  truthy srcPath = true ->
  existsSync (disk w) (resolve_icon_source (disk w) srcPath) = true ->
  copyFileSync (disk w) (resolve_icon_source (disk w) srcPath)
    (path_join [iconsDir; destName]) = Ok d' ->
  copy_icon (destName, srcPath) w
  = (Done tt,
     say (Log (lit "Copied icon " ++ destName))
       {| disk := d'; console := console w |}).
Proof.
  intros Ht He Hc. unfold copy_icon. rewrite Ht. cbn [negb].
  unfold bind, fs_existsSync, fs_copyFileSync, on_disk.
  cbv beta iota zeta. now rewrite He, Hc.
Qed.

Lemma stage_icons_unset branding w :
  icons branding = None -> stage_icons branding w = (Done tt, w).
Proof. unfold stage_icons. now intros ->. Qed.

Lemma stage_icons_loop branding entries w :
  icons branding = Some entries ->
  existsSync (disk w) iconsDir = true ->
  stage_icons branding w = for_each entries copy_icon w.
Proof.
  intros Hi He. unfold stage_icons. rewrite Hi.
  unfold bind, fs_existsSync. now rewrite He.
Qed.

(** *** Stage 4 *)

Lemma stage_locales_missing branding w :
  existsSync (disk w) localesDir = false ->
  stage_locales branding w = (Done tt, w).
Proof.
  intros H. unfold stage_locales, bind, fs_existsSync. now rewrite H.
Qed.

(** *** The run *)

Lemma main_config_missing d :
  existsSync d brandingPath = false ->
  main (start d)
  = (Exited 1,
     say (Error "branding.json not found in rebranding directory.") (start d)).
Proof.
  intros H. unfold main, bind, fs_existsSync.
  change (disk (start d)) with d. now rewrite H.
Qed.

Lemma main_config_read d raw branding :
  existsSync d brandingPath = true ->
  readFileSync d brandingPath = Ok raw ->
  JSON_parse_branding raw = Ok branding ->
  main (start d)
  = stages branding
      (say (Log (lit "Applying branding: " ++ name branding)) (start d)).
Proof.
  intros H1 H2 H3.
  unfold main, bind, fs_existsSync, fs_readFileSync, lift.
  change (disk (start d)) with d. rewrite H1. cbn [negb]. unfold ret.
  cbv beta iota. change (disk (start d)) with d. now rewrite H2, H3.
Qed.

End Pipeline.

(* ================================================================= *)
(** * Part VII: the claims about the stages *)
(* ================================================================= *)

Lemma not_in_keys (k : str) (keys : list str) :
  existsb (str_eqb k) keys = false -> ~ In k keys.
Proof.
  intros H Hin. assert (E : existsb (str_eqb k) keys = true).
  { apply existsb_exists. exists k. split; [assumption|apply str_eqb_refl]. }
  congruence.
Qed.

(** C3: a parsed manifest that takes properties comes out of the
    overwrite with [name], [publisher] and [description] equal to the
    configured values, with [repository] equal to the object of type
    ["git"] and the configured url when the configured repository is not
    empty and as it was otherwise, and with [homepage] equal to the
    configured homepage when that is not empty and as it was otherwise;
    stage 1 applies the overwrite to what [JSON.parse] returns for the
    substituted text and writes the serialized result. *)
Theorem manifest_overwritten {node : Node} branding doc :
  takes_properties doc = true ->
  exists doc',
    overwrite_manifest branding doc = Ok doc' /\
    get_field doc' "name" = Some (JString (name branding)) /\
    get_field doc' "publisher" = Some (JString (publisher branding)) /\
    get_field doc' "description" = Some (JString (description branding)) /\
    get_field doc' "repository"
    = (if truthy (repository branding)
       then Some (JObject [(lit "type", JString "git");
                           (lit "url", JString (repository branding))])
       else get_field doc "repository") /\
    get_field doc' "homepage"
    = (if truthy (homepage branding)
       then Some (JString (homepage branding))
       else get_field doc "homepage") /\
    (forall w content,
       existsSync (disk w) (packageJsonPath branding) = true ->
       readFileSync (disk w) (packageJsonPath branding) = Ok content ->
       JSON_parse (rewrite_manifest_text branding content) = Ok doc ->
       stage_package branding w
       = (fs_writeFileSync (packageJsonPath branding)
            (JSON_stringify doc' ++ newline) ;;
          console_log (lit "Updated " ++ relativePackagePath branding)) w).
Proof.
  intros Hdoc.
  destruct (overwrite_manifest_total branding doc Hdoc) as [doc' H].
  exists doc'. split; [exact H|].
  destruct (@overwrite_manifest_fields branding doc doc' H)
    as (Hn & Hp & Hd & Hr & Hh).
  repeat (split; [assumption|]).
  intros w content H1 H2 H3.
  apply (@stage_package_found _ branding w content doc doc'); assumption.
Qed.

Lemma manifest_overwritten_witness :
  exists doc',
    overwrite_manifest jack (JObject [(lit "name", JString "kilo-code")])
    = Ok doc' /\
    get_field doc' "name" = Some (JString "jack-code") /\
    get_field doc' "homepage" = None.
Proof.
  destruct (@manifest_overwritten demo jack
              (JObject [(lit "name", JString "kilo-code")]) eq_refl)
    as (doc' & H & Hn & _ & _ & _ & Hh & _).
  exists doc'. split; [exact H|]. split; [exact Hn | exact Hh].
Defined.

(** C5: a parsed localization map that takes properties comes out of
    stage 2 with the seven known keys assigned --
    [extension.description] from the configured description, the other
    six from the configured display name -- and with every other key
    holding what it held; stage 2 writes the serialized result. *)
Theorem nls_overwritten {node : Node} branding doc :
  takes_properties doc = true ->
  exists doc',
    overwrite_nls branding doc = Ok doc' /\
    get_field doc' "extension.displayName"
      = Some (JString (displayName branding)) /\
    get_field doc' "extension.description"
      = Some (JString (description branding)) /\
    get_field doc' "views.activitybar.title"
      = Some (JString (displayName branding)) /\
    get_field doc' "views.sidebar.name"
      = Some (JString (displayName branding)) /\
    get_field doc' "configuration.title"
      = Some (JString (displayName branding)) /\
    get_field doc' "views.contextMenu.label"
      = Some (JString (displayName branding)) /\
    get_field doc' "views.terminalMenu.label"
      = Some (JString (displayName branding)) /\
    (forall k, ~ In k nls_known_keys -> get_field doc' k = get_field doc k) /\
    (forall w content,
       existsSync (disk w) (nlsPath branding) = true ->
       readFileSync (disk w) (nlsPath branding) = Ok content ->
       JSON_parse content = Ok doc ->
       stage_nls branding w
       = (fs_writeFileSync (nlsPath branding)
            (JSON_stringify doc' ++ newline) ;;
          console_log (lit "Updated " ++ relativeNlsPath branding)) w).
Proof.
  intros Hdoc.
  destruct (overwrite_nls_total branding doc Hdoc) as [doc' H].
  exists doc'. split; [exact H|].
  destruct (@overwrite_nls_fields branding doc doc' H)
    as (H1 & H2 & H3 & H4 & H5 & H6 & H7).
  repeat (split; [assumption|]). split.
  - intros k Hk. now apply overwrite_nls_frame with (branding := branding).
  - intros w content E1 E2 E3.
    apply (@stage_nls_found _ branding w content doc doc'); assumption.
Qed.

Lemma nls_overwritten_witness :
  exists doc',
    overwrite_nls jack
      (JObject [(lit "command.newTask.title", JString "New Task");
                (lit "extension.displayName", JString "Kilo Code")])
    = Ok doc' /\
    get_field doc' "extension.displayName" = Some (JString "Jack Assistant") /\
    get_field doc' "command.newTask.title" = Some (JString "New Task").
Proof.
  destruct (@nls_overwritten demo jack
              (JObject [(lit "command.newTask.title", JString "New Task");
                        (lit "extension.displayName", JString "Kilo Code")])
              eq_refl)
    as (doc' & H & Hn & _ & _ & _ & _ & _ & _ & Hframe & _).
  exists doc'. split; [exact H|]. split; [exact Hn|].
  rewrite Hframe; [reflexivity|].
  apply not_in_keys. reflexivity.
Defined.

(** C6: an absolute source path is used as it is, whatever the disk
    holds; a relative one is the path beside the configuration file when
    that path exists, and the path under the project root when it does
    not. *)
Theorem icon_source_resolution {node : Node} (d : FS) (srcPath : str) :
  (path_isAbsolute srcPath = true ->
   resolve_icon_source d srcPath = srcPath) /\
  (path_isAbsolute srcPath = false ->
   existsSync d (path_join [dirname__; srcPath]) = true ->
   resolve_icon_source d srcPath = path_join [dirname__; srcPath]) /\
  (path_isAbsolute srcPath = false ->
   existsSync d (path_join [dirname__; srcPath]) = false ->
   resolve_icon_source d srcPath = path_join [rootDir; srcPath]).
Proof.
  split; [apply resolve_absolute|].
  split; [apply resolve_beside_config | apply resolve_under_root].
Qed.

Lemma icon_source_resolution_witness :
  @resolve_icon_source demo disk_icons "/icons/light.png"
    = lit "/icons/light.png" /\
  @resolve_icon_source demo disk_icons "logo.png"
    = lit "/repo/rebranding/logo.png" /\
  @resolve_icon_source demo disk_icons "art/dark.png"
    = lit "/repo/rebranding/../art/dark.png".
Proof.
  split; [|split].
  - apply (@icon_source_resolution demo disk_icons "/icons/light.png").
    reflexivity.
  - apply (@icon_source_resolution demo disk_icons "logo.png");
      reflexivity.
  - apply (@icon_source_resolution demo disk_icons "art/dark.png");
      reflexivity.
Defined.

(** C7: stage 3 runs the loop over the entries of [icons]; the loop
    takes the pairs in their order; a pair with an empty
    source path changes nothing and prints nothing; a pair whose
    resolved source does not exist adds one warning and the loop goes on
    with the pairs behind it, so that a pair behind it whose source
    exists is copied to its place in the icons directory. *)
Theorem missing_icon_is_passed_over {node : Node}
    pre destName srcPath post w w1 :
  for_each pre copy_icon w = (Done tt, w1) ->
  truthy srcPath = true ->
  existsSync (disk w1) (resolve_icon_source (disk w1) srcPath) = false ->
  let warned :=
    say (Warn (icon_warning (resolve_icon_source (disk w1) srcPath))) w1 in
  (forall branding entries w0,
     icons branding = Some entries ->
     existsSync (disk w0) iconsDir = true ->
     stage_icons branding w0 = for_each entries copy_icon w0) /\
  (forall pair rest w0,
     for_each (pair :: rest) copy_icon w0
     = (copy_icon pair ;; for_each rest copy_icon) w0) /\
  (forall destName0 w0, copy_icon (destName0, []) w0 = (Done tt, w0)) /\
  for_each (pre ++ (destName, srcPath) :: post) copy_icon w
  = for_each post copy_icon warned /\
  (forall destName' srcPath' rest d',
     post = (destName', srcPath') :: rest ->
     truthy srcPath' = true ->
     existsSync (disk w1) (resolve_icon_source (disk w1) srcPath') = true ->
     copyFileSync (disk w1) (resolve_icon_source (disk w1) srcPath')
       (path_join [iconsDir; destName']) = Ok d' ->
     for_each (pre ++ (destName, srcPath) :: post) copy_icon w
     = for_each rest copy_icon
         (say (Log (lit "Copied icon " ++ destName'))
            {| disk := d'; console := console warned |})).
Proof.
  intros Hpre Ht Hmiss warned.
  assert (Hloop :
    for_each (pre ++ (destName, srcPath) :: post) copy_icon w
    = for_each post copy_icon warned).
  { rewrite for_each_app. rewrite (@bind_Done _ _ _ _ _ _ _ _ Hpre).
    cbn [for_each].
    rewrite (@bind_Done _ _ _ _ _ _ _ _
               (copy_icon_missing destName srcPath w1 Ht Hmiss)).
    reflexivity. }
  split; [intros; now apply stage_icons_loop|].
  split; [reflexivity|]. split; [reflexivity|]. split; [exact Hloop|].
  intros destName' srcPath' rest d' -> Ht' He Hc.
  rewrite Hloop. cbn [for_each].
  rewrite (@bind_Done _ _ _ _ _ _ _ _
             (@copy_icon_present _ destName' srcPath' warned d' Ht' He Hc)).
  reflexivity.
Qed.

Lemma missing_icon_is_passed_over_witness :
  for_each [(lit "a.png", lit "nowhere.png"); (lit "b.png", lit "logo.png")]
    copy_icon (@start demo disk_icons)
  = (Done tt,
     @Build_world demo
       (disk_icons
        ++ [(lit "/repo/rebranding/../src/assets/icons/b.png",
             Mem.File "PNG1")])
       [Warn (lit "Icon source not found: /repo/rebranding/../nowhere.png"
              ++ lit " (checked relative to rebranding/ and root)");
        Log "Copied icon b.png"]).
Proof.
  destruct (@missing_icon_is_passed_over demo [] "a.png" "nowhere.png"
              [(lit "b.png", lit "logo.png")]
              (@start demo disk_icons) (@start demo disk_icons)
              eq_refl eq_refl eq_refl) as (_ & _ & _ & _ & H).
  exact (H (lit "b.png") (lit "logo.png") []
           (disk_icons
            ++ [(lit "/repo/rebranding/../src/assets/icons/b.png",
                 Mem.File "PNG1")])
           eq_refl eq_refl eq_refl eq_refl).
Defined.

(** C9 as stated fails: with a manifest that is not JSON the run prints
    the exception and ends with status 0, not with a failure status; and
    with the manifest, the localization map and the locale directory all
    missing, two messages are printed, none of them for the locale
    directory. *)
Lemma malformed_manifest_exits_with_zero :
  @run demo disk_malformed
  = (@Build_world demo disk_malformed
       [Log "Applying branding: jack-code"; ErrorExn (SyntaxError "{")],
     0) /\
  @run demo disk_bare
  = (@Build_world demo disk_bare
       [Log "Applying branding: jack-code";
        Error "src/package.json not found";
        Error "src/package.nls.json not found"],
     0).
Proof. split; vm_compute; reflexivity. Qed.

(** C9, amended: without the configuration document the run prints its
    diagnostic and exits with status 1; a manifest or localization map
    that does not parse ends the run where it stands -- nothing is
    written for it, no later stage runs -- and the exception is printed;
    a missing manifest or localization map is reported and the stages
    behind it run; a missing locale directory is passed over and the
    stage ends normally. *)
Theorem run_failure_modes {node : Node} :
  (forall d,
     existsSync d brandingPath = false ->
     run d
     = (say (Error "branding.json not found in rebranding directory.")
          (start d), 1)) /\
  (forall d raw branding content e,
     existsSync d brandingPath = true ->
     readFileSync d brandingPath = Ok raw ->
     JSON_parse_branding raw = Ok branding ->
     existsSync d (packageJsonPath branding) = true ->
     readFileSync d (packageJsonPath branding) = Ok content ->
     JSON_parse (rewrite_manifest_text branding content) = Throw e ->
     fst (run d)
     = say (ErrorExn e)
         (say (Log (lit "Applying branding: " ++ name branding)) (start d))) /\
  (forall branding w content e,
     existsSync (disk w) (packageJsonPath branding) = true ->
     readFileSync (disk w) (packageJsonPath branding) = Ok content ->
     JSON_parse (rewrite_manifest_text branding content) = Throw e ->
     stages branding w = (Thrown e, w)) /\
  (forall branding w content e,
     existsSync (disk w) (nlsPath branding) = true ->
     readFileSync (disk w) (nlsPath branding) = Ok content ->
     JSON_parse content = Throw e ->
     (stage_nls branding ;; stage_icons branding ;; stage_locales branding) w
     = (Thrown e, w)) /\
  (forall branding w,
     existsSync (disk w) (packageJsonPath branding) = false ->
     stages branding w
     = (stage_nls branding ;; stage_icons branding ;; stage_locales branding)
         (say (Error (relativePackagePath branding ++ lit " not found")) w)) /\
  (forall branding w,
     existsSync (disk w) (nlsPath branding) = false ->
     (stage_nls branding ;; stage_icons branding ;; stage_locales branding) w
     = (stage_icons branding ;; stage_locales branding)
         (say (Error (relativeNlsPath branding ++ lit " not found")) w)) /\
  (forall branding w,
     existsSync (disk w) localesDir = false ->
     stage_locales branding w = (Done tt, w)).
Proof.
  split; [|split; [|split; [|split; [|split; [|split]]]]].
  - intros d H. unfold run. now rewrite (main_config_missing d H).
  - intros d raw branding content e H1 H2 H3 H4 H5 H6. unfold run.
    rewrite (main_config_read d H1 H2 H3). unfold stages.
    rewrite (@bind_Thrown _ _ _ _ _ _ _ _
               (@stage_package_malformed _ branding
                  (say (Log (lit "Applying branding: " ++ name branding))
                     (start d)) content e H4 H5 H6)).
    reflexivity.
  - intros branding w content e H1 H2 H3. unfold stages.
    now rewrite (@bind_Thrown _ _ _ _ _ _ _ _
                   (@stage_package_malformed _ branding w content e H1 H2 H3)).
  - intros branding w content e H1 H2 H3.
    now rewrite (@bind_Thrown _ _ _ _ _ _ _ _
                   (@stage_nls_malformed _ branding w content e H1 H2 H3)).
  - intros branding w H. unfold stages.
    now rewrite (@bind_Done _ _ _ _ _ _ _ _ (stage_package_missing branding w H)).
  - intros branding w H.
    now rewrite (@bind_Done _ _ _ _ _ _ _ _ (stage_nls_missing branding w H)).
  - intros branding w H. now apply stage_locales_missing.
Qed.

Lemma run_failure_modes_witness :
  @run demo []
  = (@Build_world demo []
       [Error "branding.json not found in rebranding directory."], 1) /\
  fst (@run demo disk_malformed)
  = @Build_world demo disk_malformed
      [Log "Applying branding: jack-code"; ErrorExn (SyntaxError "{")].
Proof.
  destruct (@run_failure_modes demo) as (H1 & H2 & _).
  split.
  - exact (H1 [] eq_refl).
  - exact (H2 disk_malformed (lit "<jack>") jack (lit "{")
             (SyntaxError "{") eq_refl eq_refl eq_refl eq_refl eq_refl
             eq_refl).
Defined.

(* ================================================================= *)
(** * Part VIII: the short name, and running the passes again *)
(* ================================================================= *)

(** The first piece of a split at spaces is the text before the first
    space. *)
Lemma split_space_head (s : str) :
  exists rest, split s " " = first_token is_space s :: rest.
Proof.
  change (split s " ") with (split_scan [" "%char] 0 s).
  induction s as [|c s [rest IH]]; [exists []; reflexivity|].
  cbn [split_scan starts_with first_token]. unfold is_space.
  rewrite andb_true_r. destruct (Ascii.eqb " " c); [eauto|].
  rewrite IH. eauto.
Qed.

Lemma first_token_no_delimiter delimiter (s : str) :
  forallb (fun c => negb (delimiter c)) s = true ->
  first_token delimiter s = s.
Proof.
  induction s as [|c s IH]; [reflexivity|]. simpl.
  rewrite andb_true_iff, negb_true_iff. intros [-> H]. f_equal. auto.
Qed.

(** C8 as stated fails: a tab is whitespace, and the display name
    [Jack<TAB>Assistant] has the whitespace-delimited first token
    [Jack], yet the short name derived from it is the whole display
    name. *)
Lemma shortName_ignores_tab :
  shortName tabbed = None /\
  spec_shortName (displayName tabbed) = lit "Jack" /\
  derive_shortName tabbed = displayName tabbed /\
  derive_shortName tabbed <> spec_shortName (displayName tabbed).
Proof.
  repeat split; try (vm_compute; reflexivity).
  vm_compute. discriminate.
Qed.

(** C8, amended: without an explicit short name, the short name is the
    display name up to its first space character (U+0020) when that
    prefix is not empty, and the whole display name when it is empty;
    for a display name without a space it is the display name. *)
Theorem shortName_is_first_space_token branding :
  shortName branding = None ->
  derive_shortName branding
  = match first_token is_space (displayName branding) with
    | [] => displayName branding
    | c :: t => c :: t
    end /\
  (forallb (fun c => negb (is_space c)) (displayName branding) = true ->
   derive_shortName branding = displayName branding).
Proof.
  intros Hnone. unfold derive_shortName. rewrite Hnone. cbn [or_else].
  destruct (split_space_head (displayName branding)) as [rest ->].
  cbn [nth_error or_else]. split; [reflexivity|].
  intros H. rewrite (first_token_no_delimiter _ _ H).
  now destruct (displayName branding).
Qed.

Lemma shortName_is_first_space_token_witness :
  derive_shortName jack = lit "Jack".
Proof.
  destruct (@shortName_is_first_space_token jack eq_refl) as [H _].
  rewrite H. reflexivity.
Defined.




(* ================================================================= *)
(** * Part IX: further properties of the script *)
(* ================================================================= *)

(** ** The helper [replaceAll] (lines 44-46 and 152-154) *)

Section HelperLaws.

Implicit Types (s u v find rep sep : str) (ps : list str).

Lemma join_singletons s : join (map (fun c => [c]) s) [] = s.
Proof.
  induction s as [|c s IH]; [reflexivity|].
  cbn [map join]. destruct s as [|c' s]; [reflexivity|].
  cbn [map] in *. rewrite IH. reflexivity.
Qed.

Lemma split_copy c s sep :
  sep <> [] -> starts_with (c :: s) sep = false ->
  exists p ps, split s sep = p :: ps /\ split (c :: s) sep = (c :: p) :: ps.
Proof.
  intros Hne Hm. destruct sep as [|r R]; [congruence|]. unfold split.
  cbn [split_scan]. rewrite Hm.
  destruct (split_scan (r :: R) 0 s) as [|p ps] eqn:E.
  - now apply split_scan_nonempty in E.
  - eauto.
Qed.

(** The first match of the loop: either the separator is absent and the
    text is the one piece, or the text is cut at an occurrence with no
    occurrence before it. *)
Lemma split_first s sep :
  sep <> [] ->
  (includes s sep = false /\ split s sep = [s]) \/
  (exists u v, s = u ++ sep ++ v /\ includes u sep = false /\
     split s sep = u :: split v sep).
Proof.
  intros Hne. induction s as [|c s IH].
  - left. assert (H : includes [] sep = false).
    { destruct sep; [congruence | reflexivity]. }
    split; [exact H | now apply split_absent].
  - destruct (starts_with (c :: s) sep) eqn:Hm.
    + right. apply starts_with_iff in Hm as [r Hr].
      exists [], r. rewrite Hr. split; [reflexivity|]. split.
      * destruct sep; [congruence | reflexivity].
      * apply (@split_leftmost [] r sep Hne). intros i Hi. inversion Hi.
    + destruct (@split_copy c s sep Hne Hm) as (p & ps & E1 & E2).
      destruct IH as [[Ha Hb] | (u & v & Hs & Hu & Hr)].
      * left. cbn [includes]. rewrite Hm, Ha. split; [reflexivity|].
        rewrite E2. rewrite Hb in E1. now inversion E1.
      * right. exists (c :: u), v. split; [now rewrite Hs|]. split.
        -- cbn [includes]. rewrite Hu, orb_false_r.
           destruct (starts_with (c :: u) sep) eqn:E; [|reflexivity].
           apply starts_with_extend with (t := sep ++ v) in E.
           cbn [app] in E. rewrite <- Hs in E. congruence.
        -- rewrite E2. rewrite Hr in E1. now inversion E1.
Qed.

Lemma length_join ps sep :
  ps <> [] ->
  length (join ps sep) + length sep
  = list_sum (map (@length ascii) ps) + length ps * length sep.
Proof.
  induction ps as [|p ps IH]; [congruence|]. intros _.
  destruct ps as [|q ps].
  - cbn. lia.
  - rewrite join_cons by discriminate.
    assert (H : q :: ps <> []) by discriminate. specialize (IH H).
    rewrite !length_app. cbn [map list_sum fold_right length] in *.
    rewrite ?Nat.mul_succ_l in *. lia.
Qed.

Lemma join_split s sep : join (split s sep) sep = s.
Proof.
  destruct sep as [|r R].
  - apply join_singletons.
  - apply (@replaceAll_same s (r :: R)). discriminate.
Qed.

End HelperLaws.

(** X1: joining the pieces of a split with the separator they were split
    at gives the text back, for every separator, the empty one
    included. *)
Theorem split_join_round_trip (s sep : str) : join (split s sep) sep = s.
Proof. apply join_split. Qed.

(** X2: a text in which the searched string does not occur is returned
    as it is. *)
Theorem replaceAll_without_occurrence (s find rep : str) :
  ~ occurs find s -> replaceAll s find rep = s.
Proof. intros H. now apply replaceAll_absent, includes_false. Qed.

Lemma replaceAll_without_occurrence_witness :
  replaceAll "Settings" "Kilo" "Jack" = lit "Settings".
Proof.
  apply replaceAll_without_occurrence.
  apply includes_false. reflexivity.
Defined.

(** X3: for a searched string that is not empty, [replaceAll] is the
    greedy scan from the left: where the searched string begins, the
    replacement is written and the scan goes on behind the match, so
    matches never overlap; elsewhere one code unit is copied. *)
Theorem replaceAll_is_greedy_scan (s find rep : str) :
  find <> [] ->
  replaceAll s find rep
  = if starts_with s find
    then rep ++ replaceAll (skipn (length find) s) find rep
    else match s with
         | [] => []
         | c :: s' => c :: replaceAll s' find rep
         end.
Proof.
  intros Hne. destruct (starts_with s find) eqn:Hm.
  - now apply replaceAll_match.
  - destruct s as [|c s]; [now apply replaceAll_nil|].
    now apply replaceAll_copy.
Qed.

Lemma replaceAll_is_greedy_scan_witness :
  replaceAll "aaab" "aa" "X" = lit "X" ++ replaceAll "ab" "aa" "X".
Proof.
  apply (@replaceAll_is_greedy_scan "aaab" "aa" "X"). discriminate.
Defined.

(** X4: no piece of a split at a separator that is not empty contains
    the separator. *)
Theorem split_pieces_hold_no_separator (s sep p : str) :
  sep <> [] -> In p (split s sep) -> ~ occurs sep p.
Proof.
  intros Hne. remember (length s) as n eqn:Hn.
  revert s Hn. induction n as [n IH] using lt_wf_ind. intros s Hn Hin.
  destruct (@split_first s sep Hne)
    as [[Ha Hs] | (u & v & Es & Hu & Hs)]; rewrite Hs in Hin.
  - destruct Hin as [<- | []]. now apply includes_false.
  - destruct Hin as [<- | Hin]; [now apply includes_false|].
    apply (IH (length v)) with (s := v); [|reflexivity | assumption].
    subst n s. rewrite !length_app. destruct sep; [congruence | simpl; lia].
Qed.

Lemma split_pieces_hold_no_separator_witness :
  ~ occurs (lit "Kilo") (lit " and ").
Proof.
  apply (@split_pieces_hold_no_separator "Kilo and Kilocode" "Kilo" " and ").
  - discriminate.
  - vm_compute. right. left. reflexivity.
Defined.

(** X5: when the searched string is not empty and the split has [k + 1]
    pieces, the result is as long as the text with [k] copies of the
    searched string exchanged for [k] copies of the replacement. *)
Theorem replaceAll_length (s find rep : str) :
  find <> [] ->
  exists k,
    length (split s find) = S k /\
    length (replaceAll s find rep) + k * length find
    = length s + k * length rep.
Proof.
  intros Hne.
  assert (Hps : split s find <> []).
  { destruct find as [|r R]; [congruence|]. apply split_scan_nonempty. }
  destruct (split s find) as [|p ps] eqn:E; [congruence|].
  exists (length ps). split; [reflexivity|].
  assert (H1 := @length_join _ rep Hps).
  assert (H2 := @length_join _ find Hps).
  rewrite <- E, join_split in H2. unfold replaceAll.
  rewrite E in *. cbn [length] in *. rewrite ?Nat.mul_succ_l in *. lia.
Qed.

Lemma replaceAll_length_witness :
  exists k,
    length (split "Kilo Code and Kilo" "Kilo") = S k /\
    length (replaceAll "Kilo Code and Kilo" "Kilo" "Jacky") + k * 4
    = 18 + k * 5.
Proof.
  apply (@replaceAll_length "Kilo Code and Kilo" "Kilo" "Jacky").
  discriminate.
Defined.

(** X6: a replacement that is fresh for the searched string leaves no
    occurrence of it, and replacing again changes nothing. *)
Theorem replaceAll_fresh_is_final (s find rep : str) :
  fresh_for find rep = true ->
  ~ occurs find (replaceAll s find rep) /\
  replaceAll (replaceAll s find rep) find rep = replaceAll s find rep.
Proof.
  intros Hf. assert (H := @replaceAll_removes find rep s Hf).
  split; [exact H|]. now apply replaceAll_absent, includes_false.
Qed.

Lemma replaceAll_fresh_is_final_witness :
  replaceAll (replaceAll "Kilo Kilo" "Kilo" "Jack") "Kilo" "Jack"
  = replaceAll "Kilo Kilo" "Kilo" "Jack".
Proof.
  apply (@replaceAll_fresh_is_final "Kilo Kilo" "Kilo" "Jack").
  reflexivity.
Defined.

(** X7: where no copy of the searched string lies across the point at
    which two texts meet, replacing in their concatenation is replacing
    in each and concatenating. *)
Theorem replaceAll_of_concatenation (find rep L Rt : str) :
  find <> [] -> no_straddle find L Rt ->
  replaceAll (L ++ Rt) find rep
  = replaceAll L find rep ++ replaceAll Rt find rep.
Proof. apply replaceAll_cut. Qed.

Lemma replaceAll_of_concatenation_witness :
  replaceAll (lit "Kilo," ++ lit " Kilo") "Kilo" "Jack"
  = replaceAll "Kilo," "Kilo" "Jack" ++ replaceAll " Kilo" "Kilo" "Jack".
Proof.
  apply replaceAll_of_concatenation; [discriminate|].
  apply (@clear_cut_sound (lit "Kilo") (lit "Kilo,") (lit " Kilo") [] []).
  reflexivity.
Defined.

(** X8: [endsWith] holds exactly for the texts that are some stem
    followed by the suffix; the stem may be empty. *)
Theorem endsWith_iff (s suffix : str) :
  endsWith s suffix = true <-> exists stem, s = stem ++ suffix.
Proof.
  unfold endsWith. rewrite starts_with_iff. split.
  - intros [r H]. exists (rev r).
    rewrite <- (rev_involutive s), H, rev_app_distr.
    now rewrite rev_involutive.
  - intros [stem ->]. exists (rev stem). apply rev_app_distr.
Qed.

(** ** The short name (line 144) *)

(** X9: an explicit short name that is not empty is the short name; an
    explicit empty one counts as absent; and without a non-empty
    explicit one the short name is empty only when the display name
    is. *)
Theorem shortName_precedence branding :
  (forall c t,
     shortName branding = Some (c :: t) ->
     derive_shortName branding = c :: t) /\
  (shortName branding = Some [] ->
   derive_shortName branding
   = or_else (nth_error (split (displayName branding) " ") 0)
       (displayName branding)) /\
  (shortName branding = None \/ shortName branding = Some [] ->
   (derive_shortName branding = [] <-> displayName branding = [])).
Proof.
  unfold derive_shortName. split; [now intros c t ->|].
  split; [now intros ->|].
  intros H.
  assert (E : or_else (shortName branding)
                (or_else (nth_error (split (displayName branding) " ") 0)
                   (displayName branding))
              = or_else (nth_error (split (displayName branding) " ") 0)
                  (displayName branding)).
  { destruct H as [-> | ->]; reflexivity. }
  rewrite E. clear E H.
  destruct (split_space_head (displayName branding)) as [rest ->].
  cbn [nth_error or_else].
  destruct (displayName branding) as [|c s]; [tauto|].
  cbn [first_token]. destruct (is_space c); cbn [or_else];
    split; discriminate.
Qed.

Lemma shortName_precedence_witness :
  derive_shortName
    {| name := lit "jack-code"; displayName := lit "Jack Assistant";
       publisher := lit "jackcode"; description := [];
       outputChannelName := []; repository := []; homepage := [];
       files := None; icons := None; shortName := Some (lit "JA") |}
  = lit "JA".
Proof.
  refine (proj1 (shortName_precedence _) "J"%char ["A"%char] _).
  reflexivity.
Defined.

(** ** The assignments to the parsed documents (lines 61-73, 91-97) *)

Section KeyOrder.

Implicit Types (ps : list (str * json)) (k : str) (v : json).

Lemma has_key_In ps k : has_key ps k = true <-> In k (map fst ps).
Proof.
  unfold has_key. rewrite existsb_exists, in_map_iff. split.
  - intros ([k' v] & Hin & E). apply str_eqb_eq in E. simpl in E. subst.
    exists (k, v). auto.
  - intros ([k' v] & E & Hin). simpl in E. subst.
    exists (k, v). split; [assumption | apply str_eqb_refl].
Qed.

Lemma prop_set_keys ps k v :
  map fst (prop_set ps k v)
  = map fst ps ++ (if has_key ps k then [] else [k]).
Proof.
  induction ps as [|[k0 v0] ps IH]; [reflexivity|].
  unfold has_key in *. cbn [prop_set existsb fst].
  destruct (str_eqb k0 k); cbn [map fst app orb].
  - now rewrite app_nil_r.
  - now rewrite IH.
Qed.

Lemma keeps_keys_refl ps : keeps_keys ps ps.
Proof. exists []. rewrite app_nil_r. split; [reflexivity | intros k []]. Qed.

Lemma keeps_keys_trans ps1 ps2 ps3 :
  keeps_keys ps1 ps2 -> keeps_keys ps2 ps3 -> keeps_keys ps1 ps3.
Proof.
  intros (e1 & E1 & H1) (e2 & E2 & H2). exists (e1 ++ e2). split.
  - now rewrite E2, E1, app_assoc.
  - intros k Hin. apply in_app_or in Hin as [Hin | Hin]; [auto|].
    intros Hk. apply (H2 k Hin). rewrite E1. apply in_or_app. now left.
Qed.

Lemma keeps_keys_set ps k v : keeps_keys ps (prop_set ps k v).
Proof.
  exists (if has_key ps k then [] else [k]). split; [apply prop_set_keys|].
  intros k' Hin. destruct (has_key ps k) eqn:E; [destruct Hin|].
  destruct Hin as [<- | []]. rewrite <- has_key_In. congruence.
Qed.

Lemma set_field_object ps k v doc' :
  set_field (JObject ps) k v = Ok doc' ->
  exists ps', doc' = JObject ps' /\ keeps_keys ps ps'.
Proof.
  cbn. intros H. inversion H. eexists. split; [reflexivity|].
  apply keeps_keys_set.
Qed.

End KeyOrder.

Ltac object_step :=
  match goal with
  | H : set_field (JObject ?ps) _ _ = Ok ?d, K : keeps_keys ?ps0 ?ps |- _ =>
    let ps' := fresh "ps" in
    let E := fresh "E" in
    let K' := fresh "K" in
    apply set_field_object in H as (ps' & E & K'); subst d;
    assert (keeps_keys ps0 ps') by (eapply keeps_keys_trans; eassumption);
    clear K K'
  | H : (if ?b then set_field (JObject ?ps) _ _ else Ok (JObject ?ps)) = Ok ?d,
    K : keeps_keys ?ps0 ?ps |- _ =>
    destruct b;
    [ let ps' := fresh "ps" in
      let E := fresh "E" in
      let K' := fresh "K" in
      apply set_field_object in H as (ps' & E & K'); subst d;
      assert (keeps_keys ps0 ps') by (eapply keeps_keys_trans; eassumption);
      clear K K'
    | inversion H; subst d; clear H ]
  end.

(** X10: the overwrite of the manifest leaves every property other than
    [name], [publisher], [description], [repository] and [homepage] as
    it was. *)
Theorem overwrite_manifest_frame branding doc doc' k :
  overwrite_manifest branding doc = Ok doc' ->
  ~ In k manifest_known_keys ->
  get_field doc' k = get_field doc k.
Proof.
  unfold overwrite_manifest. intros H Hk. chain H.
  assert (Hother : forall k0, In k0 manifest_known_keys -> str_eqb k0 k = false).
  { intros k0 H0. apply str_eqb_neq. intros ->. contradiction. }
  assert (E3 : get_field doc' k = get_field doc3 k).
  { destruct (truthy (homepage branding)); [|now inversion H].
    apply (@get_set_field_other _ _ _ _ H). apply Hother. simpl. auto 10. }
  assert (E2 : get_field doc3 k = get_field doc2 k).
  { destruct (truthy (repository branding)); [|now inversion Hset2].
    apply (@get_set_field_other _ _ _ _ Hset2). apply Hother. simpl. auto 10. }
  rewrite E3, E2.
  rewrite (@get_set_field_other _ _ _ _ Hset1)
    by (apply Hother; simpl; auto 10).
  rewrite (@get_set_field_other _ _ _ _ Hset0)
    by (apply Hother; simpl; auto 10).
  now rewrite (@get_set_field_other _ _ _ _ Hset)
    by (apply Hother; simpl; auto 10).
Qed.

Lemma overwrite_manifest_frame_witness :
  exists doc',
    overwrite_manifest jack
      (JObject [(lit "version", JString "4.1.0");
                (lit "name", JString "kilo-code")]) = Ok doc' /\
    get_field doc' "version" = Some (JString "4.1.0").
Proof.
  destruct (@overwrite_manifest_total jack
              (JObject [(lit "version", JString "4.1.0");
                        (lit "name", JString "kilo-code")]) eq_refl)
    as [doc' H].
  exists doc'. split; [exact H|].
  rewrite (@overwrite_manifest_frame jack _ doc' (lit "version") H).
  - reflexivity.
  - apply not_in_keys. reflexivity.
Defined.

(** X11: the overwrite of a manifest object keeps the names it had at
    their places and puts the names it adds behind them. *)
Theorem overwrite_manifest_keeps_key_order branding ps doc' :
  overwrite_manifest branding (JObject ps) = Ok doc' ->
  exists ps', doc' = JObject ps' /\ keeps_keys ps ps'.
Proof.
  unfold overwrite_manifest. intros H. chain H.
  assert (K : keeps_keys ps ps) by apply keeps_keys_refl.
  repeat object_step; eauto.
Qed.

Lemma overwrite_manifest_keeps_key_order_witness :
  exists ps',
    overwrite_manifest jack
      (JObject [(lit "version", JString "4.1.0");
                (lit "name", JString "kilo-code")]) = Ok (JObject ps') /\
    keeps_keys [(lit "version", JString "4.1.0");
                (lit "name", JString "kilo-code")] ps'.
Proof.
  destruct (@overwrite_manifest_total jack
              (JObject [(lit "version", JString "4.1.0");
                        (lit "name", JString "kilo-code")]) eq_refl)
    as [doc' H].
  destruct (@overwrite_manifest_keeps_key_order jack _ doc' H)
    as (ps' & -> & K).
  exists ps'. split; assumption.
Defined.

(** X12: the overwrite of a localization map object keeps the names it
    had at their places and puts the names it adds behind them, and
    applying it to its own result returns that result. *)
Theorem overwrite_nls_is_stable branding ps doc' :
  overwrite_nls branding (JObject ps) = Ok doc' ->
  (exists ps', doc' = JObject ps' /\ keeps_keys ps ps') /\
  overwrite_nls branding doc' = Ok doc'.
Proof.
  intros H. split.
  - unfold overwrite_nls in H. chain H.
    assert (K : keeps_keys ps ps) by apply keeps_keys_refl.
    repeat object_step; eauto.
  - destruct (@overwrite_nls_fields branding _ doc' H)
      as (H1 & H2 & H3 & H4 & H5 & H6 & H7).
    unfold overwrite_nls.
    rewrite (@set_field_same _ _ _ H1). cbn [and_then].
    rewrite (@set_field_same _ _ _ H2). cbn [and_then].
    rewrite (@set_field_same _ _ _ H3). cbn [and_then].
    rewrite (@set_field_same _ _ _ H4). cbn [and_then].
    rewrite (@set_field_same _ _ _ H5). cbn [and_then].
    rewrite (@set_field_same _ _ _ H6). cbn [and_then].
    now rewrite (@set_field_same _ _ _ H7).
Qed.

Lemma overwrite_nls_is_stable_witness :
  exists doc',
    overwrite_nls jack
      (JObject [(lit "command.newTask.title", JString "New Task")])
    = Ok doc' /\
    overwrite_nls jack doc' = Ok doc'.
Proof.
  destruct (@overwrite_nls_total jack
              (JObject [(lit "command.newTask.title", JString "New Task")])
              eq_refl) as [doc' H].
  exists doc'. split; [exact H|].
  apply (@overwrite_nls_is_stable jack _ doc' H).
Defined.

(** ** The locale passes on the two-word phrase (lines 159-171) *)

Section FreshWord.

Implicit Types (x y find rep : str).

Lemma no_straddle_before_fresh find rep x y :
  fresh_for find rep = true -> no_straddle find x (rep ++ y).
Proof.
  intros Hf f1 f2 l0 r0 Hfind H1 H2 HL HR.
  apply fresh_for_facts in Hf as (c & rep' & -> & _ & Hhd & _).
  destruct f2 as [|c' f2]; [congruence|]. inversion HR; subst c'.
  destruct f1 as [|a f1]; [congruence|].
  apply Hhd. rewrite Hfind. cbn [app tl]. apply in_or_app. right. now left.
Qed.

Lemma no_straddle_after_fresh find rep y :
  fresh_for find rep = true -> no_straddle find rep y.
Proof.
  intros Hf f1 f2 l0 r0 Hfind H1 H2 HL HR.
  apply fresh_for_facts in Hf as (c & rep' & Hrep & _ & _ & Hlast).
  apply Hlast. rewrite HL, last_app_nonempty by assumption.
  rewrite Hfind, removelast_app by assumption.
  apply in_or_app. left. now apply last_In.
Qed.

(** A word that is fresh for [find] is copied wherever it stands. *)
Lemma replaceAll_fresh_word find rep by_ x y :
  fresh_for find rep = true ->
  replaceAll (x ++ rep ++ y) find by_
  = replaceAll x find by_ ++ rep ++ replaceAll y find by_.
Proof.
  intros Hf. assert (Hne : find <> []).
  { intros ->. destruct rep; discriminate. }
  rewrite replaceAll_cut
    by (assumption || now apply no_straddle_before_fresh).
  rewrite replaceAll_cut
    by (assumption || now apply no_straddle_after_fresh).
  rewrite (@replaceAll_absent rep find); [reflexivity|].
  apply fresh_for_facts in Hf as (c & rep' & _ & Hno & _).
  now apply includes_false.
Qed.

End FreshWord.

(** X13: with a short name that is fresh for [Kilo], every occurrence of
    the two-word phrase [Kilo Code] comes out of the three passes as the
    short name, and the texts before and behind it are rewritten on
    their own. *)
Theorem Kilo_Code_becomes_short short display u v :
  fresh_for "Kilo" short = true ->
  rewrite_locale_text short display (u ++ lit "Kilo Code" ++ v)
  = rewrite_locale_text short display u ++ short
    ++ rewrite_locale_text short display v.
Proof.
  intros Hf. rewrite !rewrite_locale_text_fresh by assumption.
  unfold locale_pass_a at 1.
  rewrite replaceAll_token by (discriminate || reflexivity).
  unfold locale_pass_b at 1. now rewrite replaceAll_fresh_word.
Qed.

Lemma Kilo_Code_becomes_short_witness :
  rewrite_locale_text "Jack" "Jack Assistant"
    (lit "Ask " ++ lit "Kilo Code" ++ lit " now")
  = rewrite_locale_text "Jack" "Jack Assistant" "Ask " ++ lit "Jack"
    ++ rewrite_locale_text "Jack" "Jack Assistant" " now".
Proof. apply Kilo_Code_becomes_short. reflexivity. Defined.

(** ** The stages (lines 35-177) *)

Create HintDb no_exit.

Section StageLaws.

Context {node : Node}.

Implicit Types (w : world) (branding : BrandingConfig).

Lemma bind_ret_unit (k : M unit) w : (ret tt ;; k) w = k w.
Proof. reflexivity. Qed.

Lemma for_each_filter {A} (keep : A -> bool) (body : A -> M unit)
    (xs : list A) w :
  (forall x w0, keep x = false -> body x w0 = (Done tt, w0)) ->
  for_each xs body w = for_each (filter keep xs) body w.
Proof.
  intros Hskip. revert w. induction xs as [|x xs IH]; intros w; [reflexivity|].
  cbn [for_each filter]. destruct (keep x) eqn:E.
  - cbn [for_each]. unfold bind. destruct (body x w) as [[[]|e|c] w1]; auto.
  - unfold bind. rewrite (Hskip x w E). apply IH.
Qed.

Lemma no_exit_ret {A} (a : A) : no_exit (ret a).
Proof. intros w c w'. discriminate. Qed.

Lemma no_exit_bind {A B} (m : M A) (k : A -> M B) :
  no_exit m -> (forall a, no_exit (k a)) -> no_exit (bind m k).
Proof.
  intros Hm Hk w c w'. unfold bind.
  destruct (m w) as [[a|e|c0] w1] eqn:E.
  - apply Hk.
  - discriminate.
  - now apply Hm in E.
Qed.

Lemma no_exit_print l : no_exit (print l).
Proof. intros w c w'. discriminate. Qed.

Lemma no_exit_lift {A} (r : result A) : no_exit (lift r).
Proof. intros w c w'. unfold lift. destruct r; discriminate. Qed.

Lemma no_exit_on_disk op : no_exit (on_disk op).
Proof. intros w c w'. unfold on_disk. destruct (op (disk w)); discriminate. Qed.

Lemma no_exit_existsSync p : no_exit (fs_existsSync p).
Proof. intros w c w'. discriminate. Qed.

Lemma no_exit_readFileSync p : no_exit (fs_readFileSync p).
Proof. intros w c w'. unfold fs_readFileSync. apply no_exit_lift. Qed.

Lemma no_exit_readdirSync p : no_exit (fs_readdirSync p).
Proof. intros w c w'. unfold fs_readdirSync. apply no_exit_lift. Qed.

Lemma no_exit_for_each {A} (xs : list A) (body : A -> M unit) :
  (forall x, no_exit (body x)) -> no_exit (for_each xs body).
Proof.
  intros Hb. induction xs as [|x xs IH]; [apply no_exit_ret|].
  cbn [for_each]. apply no_exit_bind; auto.
Qed.

Lemma no_exit_if {A} (b : bool) (m1 m2 : M A) :
  no_exit m1 -> no_exit m2 -> no_exit (if b then m1 else m2).
Proof. now destruct b. Qed.

Hint Resolve no_exit_ret no_exit_print no_exit_lift no_exit_on_disk
  no_exit_existsSync no_exit_readFileSync no_exit_readdirSync : no_exit.

Ltac solve_no_exit :=
  repeat first
    [ apply no_exit_bind; [|intro]
    | apply no_exit_if
    | apply no_exit_for_each; intro
    | solve [auto with no_exit]
    | apply no_exit_print
    | apply no_exit_on_disk ].

Lemma no_exit_stage_package branding : no_exit (stage_package branding).
Proof.
  unfold stage_package, fs_writeFileSync, console_log, console_error.
  solve_no_exit.
Qed.

Lemma no_exit_stage_nls branding : no_exit (stage_nls branding).
Proof.
  unfold stage_nls, fs_writeFileSync, console_log, console_error.
  solve_no_exit.
Qed.

Lemma no_exit_copy_icon pair : no_exit (copy_icon pair).
Proof.
  destruct pair as [destName srcPath]. unfold copy_icon.
  destruct (negb (truthy srcPath)); [apply no_exit_ret|].
  intros w c w'.
  apply (@no_exit_bind _ _ (fs_existsSync _)
           (fun found : bool =>
              if found
              then fs_copyFileSync _ _ ;; console_log _
              else console_warn _)).
  - apply no_exit_existsSync.
  - intros found. unfold fs_copyFileSync, console_log, console_warn.
    solve_no_exit.
Qed.

Lemma no_exit_stage_icons branding : no_exit (stage_icons branding).
Proof.
  unfold stage_icons. destruct (icons branding); [|apply no_exit_ret].
  apply no_exit_bind; [apply no_exit_existsSync | intros found].
  apply no_exit_bind; [|intros _].
  - destruct (negb found); [apply no_exit_on_disk | apply no_exit_ret].
  - apply no_exit_for_each. apply no_exit_copy_icon.
Qed.

Lemma no_exit_stage_locales branding : no_exit (stage_locales branding).
Proof.
  unfold stage_locales, rewrite_locale_file, fs_writeFileSync, console_log.
  solve_no_exit.
Qed.

Lemma no_exit_stages branding : no_exit (stages branding).
Proof.
  unfold stages.
  repeat (apply no_exit_bind; [|intros _]);
    auto using no_exit_stage_package, no_exit_stage_nls,
      no_exit_stage_icons, no_exit_stage_locales.
Qed.

Lemma main_after_check d :
  existsSync d brandingPath = true ->
  main (start d)
  = (raw <- fs_readFileSync brandingPath ;;
     branding <- lift (JSON_parse_branding raw) ;;
     console_log (lit "Applying branding: " ++ name branding) ;;
     stages branding) (start d).
Proof.
  intros H. unfold main. unfold bind at 1, fs_existsSync at 1.
  change (disk (start d)) with d. rewrite H. reflexivity.
Qed.

End StageLaws.

(** X14: a manifest text that parses to [null] or to a primitive makes
    stage 1 throw a TypeError at the first assignment; nothing is
    written and nothing is printed. *)
Theorem primitive_manifest_throws {node : Node} branding w content doc :
  existsSync (disk w) (packageJsonPath branding) = true ->
  readFileSync (disk w) (packageJsonPath branding) = Ok content ->
  JSON_parse (rewrite_manifest_text branding content) = Ok doc ->
  takes_properties doc = false ->
  exists msg, stage_package branding w = (Thrown (TypeError msg), w).
Proof.
  intros H1 H2 H3 Hdoc. eexists.
  unfold stage_package, bind, fs_existsSync, fs_readFileSync, lift.
  rewrite H1, H2, H3.
  destruct doc; try discriminate; reflexivity.
Qed.

Lemma primitive_manifest_throws_witness :
  exists msg,
    @stage_package
      (Mem.platform [(lit "<jack>", jack)] [(lit "null", JNull)]) jack
      (@Build_world
         (Mem.platform [(lit "<jack>", jack)] [(lit "null", JNull)])
         [(lit "/repo/rebranding/../src/package.json", Mem.File "null")] [])
    = (Thrown (TypeError msg),
       @Build_world
         (Mem.platform [(lit "<jack>", jack)] [(lit "null", JNull)])
         [(lit "/repo/rebranding/../src/package.json", Mem.File "null")] []).
Proof.
  apply (@primitive_manifest_throws
           (Mem.platform [(lit "<jack>", jack)] [(lit "null", JNull)])
           jack _ (lit "null") JNull); reflexivity.
Defined.

(** X15: a relative icon source resolves to a path that exists exactly
    when it exists beside the configuration file or under the project
    root. *)
Theorem resolved_source_exists {node : Node} (d : FS) (srcPath : str) :
  path_isAbsolute srcPath = false ->
  existsSync d (resolve_icon_source d srcPath)
  = existsSync d (path_join [dirname__; srcPath])
    || existsSync d (path_join [rootDir; srcPath]).
Proof.
  intros Ha. unfold resolve_icon_source. rewrite Ha. cbn [negb].
  destruct (existsSync d (path_join [dirname__; srcPath])) eqn:E;
    cbn [negb orb]; [exact E | reflexivity].
Qed.

Lemma resolved_source_exists_witness :
  @existsSync demo disk_icons (@resolve_icon_source demo disk_icons "art/dark.png")
  = true.
Proof.
  rewrite (@resolved_source_exists demo disk_icons "art/dark.png" eq_refl).
  reflexivity.
Defined.

(** X16: a copy that throws ends the loop over the icon pairs: the pairs
    behind it are not processed, no line is printed for the pair, and
    what the pairs before it did stays. *)
Theorem failed_copy_ends_the_loop {node : Node}
    pre destName srcPath post w w1 e :
  for_each pre copy_icon w = (Done tt, w1) ->
  truthy srcPath = true ->
  existsSync (disk w1) (resolve_icon_source (disk w1) srcPath) = true ->
  copyFileSync (disk w1) (resolve_icon_source (disk w1) srcPath)
    (path_join [iconsDir; destName]) = Throw e ->
  for_each (pre ++ (destName, srcPath) :: post) copy_icon w = (Thrown e, w1).
Proof.
  intros Hpre Ht He Hc. rewrite for_each_app.
  rewrite (@bind_Done _ _ _ _ _ _ _ _ Hpre). cbn [for_each].
  apply bind_Thrown. unfold copy_icon. rewrite Ht. cbn [negb].
  unfold bind, fs_existsSync, fs_copyFileSync, on_disk.
  cbv beta iota zeta. now rewrite He, Hc.
Qed.

Lemma failed_copy_ends_the_loop_witness :
  for_each [(lit "b.png", lit "logo.png"); (lit "d.png", lit "/icons/light.png")]
    copy_icon (@start demo disk_blocked)
  = (Thrown (SystemError "EISDIR"
               "/repo/rebranding/../src/assets/icons/b.png"),
     @start demo disk_blocked).
Proof.
  apply (@failed_copy_ends_the_loop demo [] "b.png" "logo.png"
           [(lit "d.png", lit "/icons/light.png")]
           (@start demo disk_blocked) (@start demo disk_blocked));
    reflexivity.
Defined.

(** X17: when [icons] is set and the icons directory is missing, stage 3
    creates it before the loop, whatever [icons] holds -- an empty
    object still creates the directory -- and a [mkdirSync] that throws
    ends the stage before any pair is looked at. *)
Theorem icons_directory_is_created_first {node : Node} branding entries w :
  icons branding = Some entries ->
  existsSync (disk w) iconsDir = false ->
  (forall d',
     mkdirSync (disk w) iconsDir = Ok d' ->
     stage_icons branding w
     = for_each entries copy_icon {| disk := d'; console := console w |}) /\
  (forall d',
     mkdirSync (disk w) iconsDir = Ok d' -> entries = [] ->
     stage_icons branding w
     = (Done tt, {| disk := d'; console := console w |})) /\
  (forall e,
     mkdirSync (disk w) iconsDir = Throw e ->
     stage_icons branding w = (Thrown e, w)).
Proof.
  intros Hi He.
  assert (Hgo : forall d',
    mkdirSync (disk w) iconsDir = Ok d' ->
    stage_icons branding w
    = for_each entries copy_icon {| disk := d'; console := console w |}).
  { intros d' Hm. unfold stage_icons. rewrite Hi.
    unfold bind, fs_existsSync, fs_mkdirSync, on_disk.
    rewrite He. cbn [negb]. now rewrite Hm. }
  split; [exact Hgo|]. split.
  - intros d' Hm ->. now rewrite (Hgo d' Hm).
  - intros e Hm. unfold stage_icons. rewrite Hi.
    unfold bind, fs_existsSync, fs_mkdirSync, on_disk.
    rewrite He. cbn [negb]. now rewrite Hm.
Qed.

Lemma icons_directory_is_created_first_witness :
  @stage_icons demo (jack_with_icons []) (@start demo [])
  = (Done tt,
     @Build_world demo
       [(lit "/repo/rebranding/../src/assets/icons", Mem.Dir [])] []).
Proof.
  refine (proj1 (proj2 (@icons_directory_is_created_first demo
                          (jack_with_icons []) [] (@start demo [])
                          eq_refl eq_refl)) _ eq_refl eq_refl).
Defined.

(** X18: stage 4 handles the directory entries whose name ends with
    [.json], in the order of the listing, and passes over every other
    entry without reading it. *)
Theorem locale_stage_takes_json_entries {node : Node} branding w entries :
  existsSync (disk w) localesDir = true ->
  readdirSync (disk w) localesDir = Ok entries ->
  stage_locales branding w
  = for_each (filter (fun file => endsWith file ".json") entries)
      (rewrite_locale_file branding (derive_shortName branding)) w.
Proof.
  intros He Hr. unfold stage_locales.
  unfold bind at 1, fs_existsSync at 1. rewrite He.
  unfold bind at 1, fs_readdirSync at 1, lift. rewrite Hr.
  apply for_each_filter. intros file w0 E.
  unfold rewrite_locale_file. now rewrite E.
Qed.

Lemma locale_stage_takes_json_entries_witness :
  @stage_locales demo jack (@start demo disk_locales_other)
  = (Done tt, @start demo disk_locales_other).
Proof.
  rewrite (@locale_stage_takes_json_entries demo jack
             (@start demo disk_locales_other)
             [lit "README.md"; lit "notes.txt"] eq_refl eq_refl).
  reflexivity.
Defined.

(** X19: a locale file without [Kilo] is written back with the content
    that was read, and is reported as updated like every other file. *)
Theorem clean_locale_file_is_written_back {node : Node}
    branding short file w content :
  endsWith file ".json" = true ->
  readFileSync (disk w) (path_join [localesDir; file]) = Ok content ->
  ~ occurs (lit "Kilo") content ->
  rewrite_locale_file branding short file w
  = (fs_writeFileSync (path_join [localesDir; file]) content ;;
     console_log (lit "Updated locale file: " ++ file)) w.
Proof.
  intros He Hr Hc. unfold rewrite_locale_file. rewrite He.
  unfold bind at 1, fs_readFileSync at 1, lift. rewrite Hr.
  now rewrite rewrite_locale_text_clean.
Qed.

Lemma clean_locale_file_is_written_back_witness :
  @rewrite_locale_file demo jack "Jack" "chat.json"
    (@start demo disk_locales_clean)
  = (Done tt,
     @Build_world demo disk_locales_clean
       [Log "Updated locale file: chat.json"]).
Proof.
  rewrite (@clean_locale_file_is_written_back demo jack "Jack" "chat.json"
             (@start demo disk_locales_clean) (lit "{ }") eq_refl eq_refl).
  - reflexivity.
  - apply includes_false. reflexivity.
Defined.

(** X20: a locale entry whose name ends with [.json] and that cannot be
    read -- a directory, for one -- ends stage 4 with the exception: the
    entries behind it are not rewritten, and the files rewritten before
    it stay rewritten. *)
Theorem unreadable_locale_entry_ends_the_stage {node : Node}
    branding short pre file post w w1 e :
  for_each pre (rewrite_locale_file branding short) w = (Done tt, w1) ->
  endsWith file ".json" = true ->
  readFileSync (disk w1) (path_join [localesDir; file]) = Throw e ->
  for_each (pre ++ file :: post) (rewrite_locale_file branding short) w
  = (Thrown e, w1).
Proof.
  intros Hpre He Hr. rewrite for_each_app.
  rewrite (@bind_Done _ _ _ _ _ _ _ _ Hpre). cbn [for_each].
  apply bind_Thrown. unfold rewrite_locale_file. rewrite He.
  unfold bind, fs_readFileSync, lift. now rewrite Hr.
Qed.

Lemma unreadable_locale_entry_ends_the_stage_witness :
  for_each [lit "old.json"]
    (@rewrite_locale_file demo jack (derive_shortName jack))
    (@start demo disk_locales_nested)
  = (Thrown (SystemError "EISDIR"
       "/repo/rebranding/../webview-ui/src/i18n/locales/en/old.json"),
     @start demo disk_locales_nested).
Proof.
  apply (@unreadable_locale_entry_ends_the_stage demo jack
           (derive_shortName jack) [] "old.json" []
           (@start demo disk_locales_nested)
           (@start demo disk_locales_nested)); reflexivity.
Defined.

(** X21: the run ends with status 1 when the configuration document is
    missing and with status 0 in every other case, a stage that throws
    included; no stage calls [process.exit]. *)
Theorem run_status {node : Node} (d : FS) :
  snd (run d) = if existsSync d brandingPath then 0 else 1.
Proof.
  destruct (existsSync d brandingPath) eqn:E.
  - unfold run. rewrite (main_after_check d E).
    assert (H : no_exit
      (raw <- fs_readFileSync brandingPath ;;
       branding <- lift (JSON_parse_branding raw) ;;
       console_log (lit "Applying branding: " ++ name branding) ;;
       stages branding)).
    { apply no_exit_bind; [apply no_exit_readFileSync | intros raw].
      apply no_exit_bind; [apply no_exit_lift | intros branding].
      apply no_exit_bind; [apply no_exit_print | intros _].
      apply no_exit_stages. }
    match goal with
    | |- snd (match ?m with _ => _ end) = _ =>
      destruct m as [[[]|e|c] w1] eqn:Em
    end; try reflexivity.
    now apply H in Em.
  - unfold run. now rewrite (main_config_missing d E).
Qed.

(** X22: with the configuration read and none of the targets present --
    no manifest, no localization map, no [icons], no locale directory --
    the run leaves the disk as it was and prints the banner and the two
    messages for the missing files. *)
Theorem run_without_targets {node : Node} d raw branding :
  existsSync d brandingPath = true ->
  readFileSync d brandingPath = Ok raw ->
  JSON_parse_branding raw = Ok branding ->
  existsSync d (packageJsonPath branding) = false ->
  existsSync d (nlsPath branding) = false ->
  icons branding = None ->
  existsSync d localesDir = false ->
  run d
  = ({| disk := d;
        console :=
          [Log (lit "Applying branding: " ++ name branding);
           Error (relativePackagePath branding ++ lit " not found");
           Error (relativeNlsPath branding ++ lit " not found")] |}, 0).
Proof.
  intros H1 H2 H3 Hp Hn Hi Hl. unfold run.
  rewrite (main_config_read d H1 H2 H3). unfold stages.
  set (w0 := say (Log (lit "Applying branding: " ++ name branding)) (start d)).
  rewrite (@bind_Done _ _ _ _ _ _ _ _ (stage_package_missing branding w0 Hp)).
  set (w1 := say (Error (relativePackagePath branding ++ lit " not found")) w0).
  rewrite (@bind_Done _ _ _ _ _ _ _ _ (stage_nls_missing branding w1 Hn)).
  set (w2 := say (Error (relativeNlsPath branding ++ lit " not found")) w1).
  rewrite (@bind_Done _ _ _ _ _ _ _ _ (stage_icons_unset branding w2 Hi)).
  rewrite (stage_locales_missing branding w2 Hl). reflexivity.
Qed.

Lemma run_without_targets_witness :
  @run demo disk_bare
  = (@Build_world demo disk_bare
       [Log "Applying branding: jack-code";
        Error "src/package.json not found";
        Error "src/package.nls.json not found"], 0).
Proof.
  apply (@run_without_targets demo disk_bare (lit "<jack>") jack);
    reflexivity.
Defined.

(** X23: when stage 1 has ended normally and the localization map does
    not parse, the stages end with the exception in the world stage 1
    left: what stage 1 wrote and printed stays, and stages 3 and 4 do
    not run. *)
Theorem nls_failure_keeps_stage_one {node : Node} branding w w1 content e :
  stage_package branding w = (Done tt, w1) ->
  existsSync (disk w1) (nlsPath branding) = true ->
  readFileSync (disk w1) (nlsPath branding) = Ok content ->
  JSON_parse content = Throw e ->
  stages branding w = (Thrown e, w1).
Proof.
  intros Hp H1 H2 H3. unfold stages.
  rewrite (@bind_Done _ _ _ _ _ _ _ _ Hp).
  now rewrite (@bind_Thrown _ _ _ _ _ _ _ _
                 (@stage_nls_malformed _ branding w1 content e H1 H2 H3)).
Qed.

Lemma nls_failure_keeps_stage_one_witness :
  @stages demo jack
    (@start demo
       [(lit "/repo/rebranding/../src/package.nls.json", Mem.File "{")])
  = (Thrown (SyntaxError "{"),
     @Build_world demo
       [(lit "/repo/rebranding/../src/package.nls.json", Mem.File "{")]
       [Error "src/package.json not found"]).
Proof.
  apply (@nls_failure_keeps_stage_one demo jack _ _ (lit "{")); reflexivity.
Defined.

(** X24: a configuration document that cannot be read or does not parse
    ends the run before the banner: the exception is the only line
    printed, no stage runs and the disk is as it was. *)
Theorem unreadable_configuration_ends_the_run {node : Node} d :
  existsSync d brandingPath = true ->
  (forall e,
     readFileSync d brandingPath = Throw e ->
     run d = (say (ErrorExn e) (start d), 0)) /\
  (forall raw e,
     readFileSync d brandingPath = Ok raw ->
     JSON_parse_branding raw = Throw e ->
     run d = (say (ErrorExn e) (start d), 0)).
Proof.
  intros H. split.
  - intros e Hr. unfold run. rewrite (main_after_check d H).
    unfold bind at 1, fs_readFileSync at 1, lift.
    change (disk (start d)) with d. now rewrite Hr.
  - intros raw e Hr Hp. unfold run. rewrite (main_after_check d H).
    unfold bind at 1, fs_readFileSync at 1, lift.
    change (disk (start d)) with d. rewrite Hr.
    unfold bind at 1. now rewrite Hp.
Qed.

Lemma unreadable_configuration_ends_the_run_witness :
  @run demo disk_bad_config
  = (@Build_world demo disk_bad_config [ErrorExn (SyntaxError "{ name: ")],
     0).
Proof.
  refine (proj2 (@unreadable_configuration_ends_the_run demo disk_bad_config
                   eq_refl)
            (lit "{ name: ") _ eq_refl eq_refl).
Defined.
